(** * Duplicate-ingest search: a shallow embedding of
      [parquet_cli/duplicate_search/search.py],
      [parquet_cli/duplicate_search/delete.py] and
      [parquet_cli/ingest_verifier/check.py].

    Python strings are [string], dictionaries whose iteration order is
    observable are association lists in insertion order, the stats
    dictionary and the JSON objects (only looked up) are [gmap]s, the
    job-id set is a [gset].  The fallback runs in a small state and
    exception monad [Search.M]: its result is a value, an exception or
    the exhaustion of the fuel that bounds the [while] loops. *)

From Stdlib Require Import ZArith QArith Ascii String Sorted.
From stdpp Require Import gmap strings list fin_maps pretty.

Local Open Scope string_scope.
Local Open Scope list_scope.
Local Open Scope Z_scope.

(** ** Python string primitives used by the job-id extraction *)

Module PyStr.

(** [strip_prefix p s] is [Some r] when [s = p ++ r]. *)
Fixpoint strip_prefix (p s : string) : option string :=
  match p with
  | EmptyString => Some s
  | String a p' =>
      match s with
      | EmptyString => None
      | String b s' => if decide (a = b) then strip_prefix p' s' else None
      end
  end.

(** First occurrence of [sep] in [s]: the text before it and after it. *)
Fixpoint find_sep (sep s : string) : option (string * string) :=
  match strip_prefix sep s with
  | Some rest => Some (EmptyString, rest)
  | None =>
      match s with
      | EmptyString => None
      | String c s' =>
          match find_sep sep s' with
          | Some (b, a) => Some (String c b, a)
          | None => None
          end
      end
  end.

(** [str.partition(sep)]: [(head, sep, tail)] around the first
    occurrence, [s] with two empty strings when [sep] does not occur. *)
Definition partition (sep s : string) : string * string * string :=
  match find_sep sep s with
  | Some (b, a) => (b, sep, a)
  | None => (s, EmptyString, EmptyString)
  end.

(** [str.split(c)] for a one-character separator: never empty. *)
Fixpoint split (c : ascii) (s : string) : list string :=
  match s with
  | EmptyString => [EmptyString]
  | String a s' =>
      if decide (a = c) then EmptyString :: split c s'
      else match split c s' with
           | h :: t => String a h :: t
           | [] => [String a EmptyString]
           end
  end.

(** [l[0]]; [None] stands for [IndexError]. *)
Definition index0 (l : list string) : option string := head l.

(** [c in s] for a character. *)
Fixpoint has_char (c : ascii) (s : string) : bool :=
  match s with
  | EmptyString => false
  | String a s' => if decide (a = c) then true else has_char c s'
  end.

(** [sep in s] for a string. *)
Definition contains (sep s : string) : bool :=
  match find_sep sep s with Some _ => true | None => false end.

End PyStr.

(** ** delete.py *)

Module Delete.

(** [s3_url_to_uuid] of delete.py, lines 57-65. *)
Definition s3_url_to_uuid (url : string) : string :=
  let id_string :=
    default EmptyString
      (PyStr.index0 (PyStr.split "/"%char (PyStr.partition "job_id=" url).2)) in
  if decide (id_string = EmptyString) then "NA" else id_string.

End Delete.

(** ** The retry loop shared by [get_es_docs_for_id] (search.py) and
       [get_es_docs_for_url] (check.py) *)

Module Fetcher.

(** One run of [helpers.scan] consumed by the [for doc in scroll] loop:
    the generator either is exhausted after yielding [docs], or raises
    after having yielded [partial]. *)
Inductive scan_result (D : Type) :=
| ScanDone (docs : list D)
| ScanRaised (partial : list D).
Arguments ScanDone {D} docs.
Arguments ScanRaised {D} partial.

(** Local variables of the function, with the log of its [sleep] calls
    and the number of scans it started. *)
Record fetch_state (D : Type) := FetchState {
  records : list D;
  retries : Z;
  retry_delay : Q;
  attempts : nat;
  slept : list Q
}.
Arguments FetchState {D}.
Arguments records {D}.
Arguments retries {D}.
Arguments retry_delay {D}.
Arguments attempts {D}.
Arguments slept {D}.

(** [records = []; retries = 3; retry_delay = 1.5] *)
Definition fetch_init {D} : fetch_state D :=
  FetchState [] 3 (3 # 2) 0 [].

(** [while retries > 0: try: records = []; ...; break
     except: retries -= 1; sleep(retry_delay); retry_delay *= 2].
    [scan n] is what the [n]-th scan of this call does.  The [for] loop
    appends to [records] as documents arrive, so a scan that raises
    leaves its partial documents in [records]. *)
Fixpoint fetch_loop {D} (fuel : nat) (scan : nat → scan_result D)
    (st : fetch_state D) : option (fetch_state D) :=
  match fuel with
  | O => None
  | S fuel' =>
      if 0 <? retries st then
        match scan (attempts st) with
        | ScanDone docs =>
            Some (FetchState docs (retries st) (retry_delay st)
                    (S (attempts st)) (slept st))
        | ScanRaised partial =>
            fetch_loop fuel' scan
              (FetchState partial (retries st - 1)
                 (retry_delay st * 2)%Q
                 (S (attempts st)) (slept st ++ [retry_delay st]))
        end
      else Some st
  end.

(** [return key, records] *)
Definition get_es_docs {D} (fuel : nat) (scan : nat → scan_result D)
    (key : string) : option (string * list D) :=
  st ← fetch_loop fuel scan fetch_init; Some (key, records st).

End Fetcher.

(** ** check.py *)

Module Check.

(** [get_es_docs_for_url], check.py lines 91-118. *)
Definition get_es_docs_for_url {D} (fuel : nat)
    (scan : string → nat → Fetcher.scan_result D) (url : string)
    : option (string * list D) :=
  Fetcher.get_es_docs fuel (scan url) url.

End Check.

(** ** Python dictionaries whose iteration order matters *)

Module PyDict.

Section Dict.
Context {K A : Type} `{EqDecision K}.

(** [if k not in d: d[k] = [v] else: d[k].append(v)]; a new key goes
    last, an existing key keeps its place. *)
Fixpoint append_at (k : K) (v : A) (d : list (K * list A))
    : list (K * list A) :=
  match d with
  | [] => [(k, [v])]
  | (k', vs) :: d' =>
      if decide (k' = k) then (k', vs ++ [v]) :: d'
      else (k', vs) :: append_at k v d'
  end.
End Dict.

End PyDict.

(** ** search.py *)

Module Search.

(** [s3_url_to_uuid], search.py lines 94-99: the bare extraction, with
    no sentinel for a missing segment. *)
Definition s3_url_to_uuid (url : string) : string :=
  default EmptyString
    (PyStr.index0 (PyStr.split "/"%char (PyStr.partition "job_id=" url).2)).

(** [get_es_docs_for_id], search.py lines 138-165. *)
Definition get_es_docs_for_id {D} (fuel : nat)
    (scan : string → nat → Fetcher.scan_result D) (id : string)
    : option (string * list D) :=
  Fetcher.get_es_docs fuel (scan id) id.

(** *** Effects of the fallback: requests issued, sleeps, exceptions *)

Inductive res (A : Type) :=
| Ok (a : A)
| Exc
| OutOfFuel.
Arguments Ok {A} a.
Arguments Exc {A}.
Arguments OutOfFuel {A}.

(** Number of [session.get] calls made so far and the arguments of the
    [sleep] calls, oldest first. *)
Record world := World { requests : nat; sleeps : list Z }.

Definition M (A : Type) : Type := world → res A * world.

Definition ret {A} (a : A) : M A := λ w, (Ok a, w).
Definition raise {A} : M A := λ w, (Exc, w).
Definition out_of_fuel {A} : M A := λ w, (OutOfFuel, w).
Definition bind {A B} (c : M A) (k : A → M B) : M B :=
  λ w, match c w with
       | (Ok a, w') => k a w'
       | (Exc, w') => (Exc, w')
       | (OutOfFuel, w') => (OutOfFuel, w')
       end.
(** [try: c except: h] with a bare [except]. *)
Definition try_except {A} (c h : M A) : M A :=
  λ w, match c w with
       | (Exc, w') => h w'
       | r => r
       end.
(** A dictionary or list access that raises when the item is missing. *)
Definition item {A} (o : option A) : M A :=
  match o with Some a => ret a | None => raise end.
Definition sleep (delay : Z) : M unit :=
  λ w, (Ok tt, World (requests w) (sleeps w ++ [delay])).

Notation "'do' x <- c ; k" := (bind c (λ x, k))
  (at level 10, x pattern, c at level 100, k at level 200).

Section Engine.
Context {V : Type} `{EqDecision V}.

(** [doc['_source']] of the stats index: its [s3_url] and its other
    keys. *)
Record stats_source := StatsSource {
  s3_url : string;
  stats_fields : gmap string V
}.

(** [doc['_source']] of the files index. *)
Record file_source := FileSource {
  file_s3_url : string;
  job_end_time : Z
}.

(** The [params] dictionary of the first page request. *)
Record query_params := QueryParams {
  provider : V;
  project : V;
  platform : V;
  bbox : string;
  minDepth : V;
  maxDepth : V;
  startTime : string;
  endTime : string;
  itemsPerPage : Z
}.

(** The body of a page: [results] ([None]: key absent) and [next]
    ([None]: absent or null).  A point is a JSON object. *)
Record page := Page {
  results : option (list (gmap string V));
  next : option string
}.

(** [json = None]: [response.json()] raises. *)
Record response := Response {
  status_code : Z;
  json : option page
}.

(** What the script reads from its surroundings. *)
Record env := Env {
  OPENSEARCH_PARQUET_PREFIX : string;
  DOMS_QUERY_URL : string;
  (** the [n]-th value of [random.random()] *)
  random : nat → Q;
  (** the [n]-th scan of the files index for a job id *)
  es_scan : string → nat → Fetcher.scan_result file_source;
  (** [session.get] as the [n]-th request of the run; [None]: raises *)
  http_get : nat → string → option query_params → option response;
  (** formatting of a value in an f-string *)
  fstr : V → string;
  (** [datetime.utcfromtimestamp(v).strftime(...)]; [None]: raises *)
  utc_iso : V → option string
}.

(** *** Source enumeration, lines 102-123 *)

Record enum_state := EnumState {
  ingest_uuids : gset string;
  uuid_to_stats : gmap string stats_source;
  docs : Z;
  added : Z;
  skipped : Z;
  draws : nat
}.

Definition enum_init : enum_state := EnumState ∅ ∅ 0 0 0 0.

Definition startswith (s p : string) : bool :=
  match PyStr.strip_prefix p s with Some _ => true | None => false end.

(** Body of [for doc in scroll].  [random.random()] is only called
    when [uuid] already has a stats entry ([or] short-circuits). *)
Definition enum_step (e : env) (st : enum_state) (src : stats_source)
    : enum_state :=
  if negb (startswith (s3_url src) (OPENSEARCH_PARQUET_PREFIX e)) then
    EnumState (ingest_uuids st) (uuid_to_stats st)
      (docs st + 1) (added st) (skipped st + 1) (draws st)
  else
    let uuid := s3_url_to_uuid (s3_url src) in
    match uuid_to_stats st !! uuid with
    | None =>
        EnumState ({[uuid]} ∪ ingest_uuids st)
          (<[uuid := src]> (uuid_to_stats st))
          (docs st + 1) (added st + 1) (skipped st) (draws st)
    | Some _ =>
        EnumState ({[uuid]} ∪ ingest_uuids st)
          (if Qlt_le_dec (random e (draws st)) (1 # 4)
           then <[uuid := src]> (uuid_to_stats st)
           else uuid_to_stats st)
          (docs st + 1) (added st + 1) (skipped st) (S (draws st))
    end.

Definition enumerate (e : env) (scroll : list stats_source)
    : enum_state :=
  foldl (enum_step e) enum_init scroll.

(** *** Mapping source files to jobs, lines 189-200 *)

Definition map_doc (ingest_id : string)
    (src_id_map : list (string * list (string * Z)))
    (doc : file_source) : list (string * list (string * Z)) :=
  PyDict.append_at (file_s3_url doc) (ingest_id, job_end_time doc)
    src_id_map.

Definition map_record
    (acc : list string * list (string * list (string * Z)))
    (r : string * list file_source)
    : list string * list (string * list (string * Z)) :=
  if decide (length r.2 = 0%nat)
  then (acc.1 ++ [r.1], acc.2)
  else (acc.1, foldl (map_doc r.1) acc.2 r.2).

(** [(unconfirmed_duplicates, src_id_map)] after the loop. *)
Definition map_records (ingest_records : list (string * list file_source))
    : list string * list (string * list (string * Z)) :=
  foldl map_record ([], []) ingest_records.

(** *** Classifier, lines 202-204 *)

(** [sorted(l, key=lambda x: x[1], reverse=True)]: descending and
    stable (pairs with equal timestamps keep their order). *)
Fixpoint insert_desc (x : string * Z) (l : list (string * Z))
    : list (string * Z) :=
  match l with
  | [] => [x]
  | y :: l' => if x.2 <? y.2 then y :: insert_desc x l' else x :: l
  end.

Fixpoint sorted_desc (l : list (string * Z)) : list (string * Z) :=
  match l with
  | [] => []
  | x :: l' => insert_desc x (sorted_desc l')
  end.

(** [[src_id_map[src] for src in src_id_map if len(src_id_map[src]) > 1]] *)
Definition shared_entries (src_id_map : list (string * list (string * Z)))
    : list (list (string * Z)) :=
  filter (λ duplicates, (1 < length duplicates)%nat)
    (snd <$> src_id_map).

(** [list(sorted(...))[1:]] and [[d[0] for d in duplicate_jobs]] *)
Definition duplicate_jobs (duplicates : list (string * Z)) : list string :=
  fst <$> drop 1 (sorted_desc duplicates).

(** The [for duplicates in ...] loop, extending [confirmed_duplicates]. *)
Definition classify (src_id_map : list (string * list (string * Z)))
    (confirmed_duplicates : list string) : list string :=
  foldl (λ confirmed duplicates, confirmed ++ duplicate_jobs duplicates)
    confirmed_duplicates (shared_entries src_id_map).

(** *** External confirmation, lines 215-277 *)

(** [session.get(url, params=params)]: one more request issued. *)
Definition session_get (e : env) (url : string)
    (params : option query_params) : M response :=
  λ w, match http_get e (requests w) url params with
       | Some r => (Ok r, World (S (requests w)) (sleeps w))
       | None => (Exc, World (S (requests w)) (sleeps w))
       end.

(** Lines 221-236; [None] when a key is missing or a time cannot be
    converted. *)
Definition build_params (e : env) (parquet_stats : stats_source)
    : option query_params :=
  min_lon ← stats_fields parquet_stats !! "min_lon";
  min_lat ← stats_fields parquet_stats !! "min_lat";
  max_lon ← stats_fields parquet_stats !! "max_lon";
  max_lat ← stats_fields parquet_stats !! "max_lat";
  provider ← stats_fields parquet_stats !! "provider";
  project ← stats_fields parquet_stats !! "project";
  platform ← stats_fields parquet_stats !! "platform_code";
  minDepth ← stats_fields parquet_stats !! "min_depth";
  maxDepth ← stats_fields parquet_stats !! "max_depth";
  min_datetime ← stats_fields parquet_stats !! "min_datetime";
  startTime ← utc_iso e min_datetime;
  max_datetime ← stats_fields parquet_stats !! "max_datetime";
  endTime ← utc_iso e max_datetime;
  Some (QueryParams provider project platform
          (fstr e min_lon ++ "," ++ fstr e min_lat ++ "," ++
           fstr e max_lon ++ "," ++ fstr e max_lat)%string
          minDepth maxDepth startTime endTime 20000).

(** [response.raise_for_status()]: raises for 4xx and 5xx codes. *)
Definition raise_for_status (r : response) : M unit :=
  if (400 <=? status_code r) && (status_code r <? 600)
  then raise else ret tt.

(** Lines 249-252.  [retries] is tested and never changed. *)
Fixpoint retry_loop (fuel : nat) (e : env) (url : string)
    (params : option query_params) (retries delay : Z)
    (resp : response) : M response :=
  match fuel with
  | O => out_of_fuel
  | S fuel' =>
      if (0 <? retries) && negb (status_code resp =? 200) then
        do _ <- sleep delay;
        do resp' <- session_get e url params;
        retry_loop fuel' e url params retries (delay * 2) resp'
      else ret resp
  end.

(** Lines 243-260: [while next_url is not None and next_url != 'NA']. *)
Fixpoint page_loop (fuel : nat) (e : env) (next_url : option string)
    (params : option query_params)
    (insitu_points : list (gmap string V))
    : M (list (gmap string V)) :=
  match fuel with
  | O => out_of_fuel
  | S fuel' =>
      match next_url with
      | None => ret insitu_points
      | Some url =>
          if decide (url = "NA") then ret insitu_points
          else
            do resp <- session_get e url params;
            do resp <- retry_loop fuel' e url params 2 1 resp;
            do _ <- raise_for_status resp;
            do insitu_response <- item (json resp);
            do rs <- item (results insitu_response);
            page_loop fuel' e (next insitu_response) None
              (insitu_points ++ rs)
      end
  end.

(** [(p['time'], p['latitude'], p['longitude'], p['depth'])] *)
Definition point_key (p : gmap string V) : option (V * V * V * V) :=
  t ← p !! "time";
  la ← p !! "latitude";
  lo ← p !! "longitude";
  d ← p !! "depth";
  Some (t, la, lo, d).

(** Lines 264-269; [None] when a point lacks one of the five keys. *)
Fixpoint group_points (insitu_points : list (gmap string V))
    (insitu_dict : list (V * V * V * V * list V))
    : option (list (V * V * V * V * list V)) :=
  match insitu_points with
  | [] => Some insitu_dict
  | p :: ps =>
      key ← point_key p;
      job_id ← p !! "job_id";
      group_points ps (PyDict.append_at key job_id insitu_dict)
  end.

(** [any([len(insitu_dict[k]) > 1 for k in insitu_dict])] *)
Definition any_group (insitu_dict : list (V * V * V * V * list V))
    : bool :=
  existsb (λ kv, (1 <? length kv.2)%nat) insitu_dict.

(** The body of the [try], up to the test of line 271. *)
Definition check_job (fuel : nat) (e : env)
    (uuid_to_stats : gmap string stats_source) (uuid : string)
    : M bool :=
  do parquet_stats <- item (uuid_to_stats !! uuid);
  do params <- item (build_params e parquet_stats);
  do insitu_points <-
    page_loop fuel e (Some (DOMS_QUERY_URL e)) (Some params) [];
  do insitu_dict <- item (group_points insitu_points []);
  ret (any_group insitu_dict).

Record lists := Lists {
  confirmed_duplicates : list string;
  suspected_duplicates : list string;
  missing_ingest_records : list string
}.

(** Body of [for uuid in unconfirmed_duplicates]. *)
Definition fallback_step (fuel : nat) (e : env)
    (uuid_to_stats : gmap string stats_source) (acc : lists)
    (uuid : string) : M lists :=
  try_except
    (do dup <- check_job fuel e uuid_to_stats uuid;
     if dup : bool then
       ret (Lists (confirmed_duplicates acc ++ [uuid])
              (suspected_duplicates acc) (missing_ingest_records acc))
     else
       ret (Lists (confirmed_duplicates acc)
              (suspected_duplicates acc)
              (missing_ingest_records acc ++ [uuid])))
    (ret (Lists (confirmed_duplicates acc)
            (suspected_duplicates acc ++ [uuid])
            (missing_ingest_records acc))).

Fixpoint fallback (fuel : nat) (e : env)
    (uuid_to_stats : gmap string stats_source)
    (unconfirmed_duplicates : list string) (acc : lists) : M lists :=
  match unconfirmed_duplicates with
  | [] => ret acc
  | uuid :: rest =>
      do acc' <- fallback_step fuel e uuid_to_stats acc uuid;
      fallback fuel e uuid_to_stats rest acc'
  end.

(** *** The whole script *)

(** The dictionary dumped to a file. *)
Record output := Output {
  out_confirmed_duplicates : list string;
  out_suspected_duplicates : list string;
  out_missing_ingest_records : list string
}.

(** Lines 209-290, from the classifier's two lists: the files written,
    by name. *)
Definition report (fuel : nat) (e : env)
    (uuid_to_stats : gmap string stats_source)
    (unconfirmed_duplicates confirmed : list string)
    : M (list (string * output)) :=
  if decide (length unconfirmed_duplicates = 0%nat
             ∧ length confirmed = 0%nat)
  then ret []
  else
    do ls <- fallback fuel e uuid_to_stats unconfirmed_duplicates
               (Lists confirmed [] []);
    ret [("search_result.json",
          Output (confirmed_duplicates ls) (suspected_duplicates ls)
            (missing_ingest_records ls))].

(** The run, from the documents of the stats index.  The pool's
    results are taken in submission order; the phases after it are
    also stated for any list of results. *)
Definition run (fuel : nat) (e : env) (scroll : list stats_source)
    : M (list (string * output)) :=
  let st := enumerate e scroll in
  match mapM (get_es_docs_for_id fuel (es_scan e))
          (elements (ingest_uuids st)) with
  | None => out_of_fuel
  | Some ingest_records =>
      let mapped := map_records ingest_records in
      report fuel e (uuid_to_stats st) mapped.1 (classify mapped.2 [])
  end.
End Engine.

Arguments stats_source V : clear implicits.
Arguments query_params V : clear implicits.
Arguments page V : clear implicits.
Arguments response V : clear implicits.
Arguments env V : clear implicits.
Arguments enum_state V : clear implicits.

End Search.

(** ** What the returned points can show *)

Module Evidence.
Import Search.

Section Evidence.
Context {K A V : Type}.

(** [k in d] *)
Definition has_key (k : K) (d : list (K * list A)) : Prop :=
  ∃ vs, (k, vs) ∈ d.

(** Some key of [d] holds more than one element. *)
Definition has_group (d : list (K * list A)) : Prop :=
  ∃ k vs, (k, vs) ∈ d ∧ (2 ≤ length vs)%nat.

(** Every key of [d] holds at least one element. *)
Definition nonempty_groups (d : list (K * list A)) : Prop :=
  ∀ k vs, (k, vs) ∈ d → vs ≠ [].


End Evidence.

End Evidence.

(** ** Concrete surroundings used to run the script *)

Module Scenario.
Import Search.

(** A stats record with every field the query is built from. *)
Definition stats_of (url : string) : stats_source Z :=
  StatsSource url
    (list_to_map
       [("min_lon", 0); ("min_lat", 0); ("max_lon", 10); ("max_lat", 10);
        ("provider", 1); ("project", 2); ("platform_code", 3);
        ("min_depth", 0); ("max_depth", 5);
        ("min_datetime", 0); ("max_datetime", 86400)]).

Definition point (time latitude longitude depth job_id : Z)
    : gmap string Z :=
  list_to_map
    [("time", time); ("latitude", latitude); ("longitude", longitude);
     ("depth", depth); ("job_id", job_id)].

Definition env_of
    (scan : string → nat → Fetcher.scan_result file_source)
    (http : nat → string → option (query_params Z) → option (response Z))
    : env Z :=
  Env "s3://bucket/prefix/" "https://doms/query" (λ _, 1 # 2)%Q scan http
    (λ _, "0") (λ _, Some "1970-01-01T00:00:00Z").

(** No job has file records. *)
Definition no_files : string → nat → Fetcher.scan_result file_source :=
  λ _ _, Fetcher.ScanDone [].

(** Jobs [A] and [B] both consumed [f1] and [f2], [A] later. *)
Definition shared_files : string → nat → Fetcher.scan_result file_source :=
  λ id _,
    if decide (id = "A")
    then Fetcher.ScanDone [FileSource "f1" 5; FileSource "f2" 5]
    else Fetcher.ScanDone [FileSource "f1" 3; FileSource "f2" 3].

(** One page, then the terminal ["NA"]. *)
Definition one_page (points : list (gmap string Z))
    : nat → string → option (query_params Z) → option (response Z) :=
  λ _ _ _, Some (Response 200 (Some (Page (Some points) (Some "NA")))).

(** Every request is answered with status 500. *)
Definition always_500
    : nat → string → option (query_params Z) → option (response Z) :=
  λ _ _ _, Some (Response 500 None).



Definition w0 : world := World 0 [].

End Scenario.

(** ** Start-up: credentials (the three scripts, search.py lines 27-65) *)

Module Startup.

(** The four environment variables; [None]: unset. *)
Record aws_environ := AwsEnviron {
  AWS_ACCESS_KEY_ID : option string;
  AWS_SECRET_ACCESS_KEY : option string;
  AWS_SESSION_TOKEN : option string;
  AWS_PROFILE : option string
}.

(** [if x:] for a variable that is [None] or a string. *)
Definition truthy (x : option string) : bool :=
  match x with
  | Some s => negb (bool_decide (s = EmptyString))
  | None => false
  end.

Definition is_none (x : option string) : bool :=
  match x with Some _ => false | None => true end.

(** The test before [exit(1)], search.py line 31. *)
Definition credentials_missing (env : aws_environ) : bool :=
  (is_none (AWS_ACCESS_KEY_ID env) || is_none (AWS_SECRET_ACCESS_KEY env))
  && is_none (AWS_PROFILE env).

(** [aws_session_params], search.py lines 57-65, in insertion order. *)
Definition aws_session_params (env : aws_environ)
    : list (string * option string) :=
  if truthy (AWS_PROFILE env) then
    [("profile_name", AWS_PROFILE env)]
  else
    [("aws_access_key_id", AWS_ACCESS_KEY_ID env);
     ("aws_secret_access_key", AWS_SECRET_ACCESS_KEY env)]
    ++ (if truthy (AWS_SESSION_TOKEN env)
        then [("aws_session_token", AWS_SESSION_TOKEN env)]
        else []).

End Startup.

(** ** The pool's collection loop, search.py lines 179-183 *)

Module Dispatcher.

(** [for i, result in enumerate(as_completed(futures), start=1)]: the
    results collected and the values of [i] at which progress is logged. *)
Definition collect_step {R} (acc : list R * list nat) (ir : nat * R)
    : list R * list nat :=
  (acc.1 ++ [ir.2],
   if decide (ir.1 `mod` 250 = 0)%nat then acc.2 ++ [ir.1] else acc.2).

Definition collect {R} (completed : list R) : list R * list nat :=
  foldl collect_step ([], []) (zip (seq 1 (length completed)) completed).

End Dispatcher.

(** ** The rest of delete.py *)

Module DeleteRun.

(** Line 70: the keys of a page whose job id is in [duplicated_jobs]. *)
Definition select_page (duplicated_jobs : list string)
    (objects : list string) : list string :=
  filter (λ key, Delete.s3_url_to_uuid key ∈ duplicated_jobs) objects.

(** Lines 68-70: [to_delete] after all pages. *)
Definition select (duplicated_jobs : list string)
    (pages : list (list string)) : list string :=
  foldl (λ to_delete objects,
           to_delete ++ select_page duplicated_jobs objects) [] pages.

(** [range(0, stop, step)] for a positive step. *)
Definition py_range (stop step : nat) : list nat :=
  (λ k, k * step)%nat <$> seq 0 ((stop + step - 1) / step)%nat.

(** Line 72: [[to_delete[i:i+1000] for i in range(0, len(to_delete), 1000)]] *)
Definition batches {A} (to_delete : list A) : list (list A) :=
  (λ i, take 1000 (drop i to_delete)) <$> py_range (length to_delete) 1000.

(** A reply of [delete_objects]: the keys of [resp['Deleted']] and of
    [resp['Errors']]; [None]: the reply has no such member ([boto3]
    leaves out a member that would be empty), and subscripting it raises
    [KeyError]. *)
Record delete_response := DeleteResponse {
  Deleted : option (list string);
  Errors : option (list string)
}.

(** How the handling of a batch ends, with the calls made and their
    replies: the code after it is reached, or a [KeyError] is raised. *)
Inductive delete_outcome :=
| Completed (calls : list (list string * delete_response))
| KeyError (calls : list (list string * delete_response)).

Definition calls_of (out : delete_outcome)
    : list (list string * delete_response) :=
  match out with Completed calls | KeyError calls => calls end.

(** Lines 83-88: the retry loop; [s3 n keys] answers the [n]-th
    [delete_objects] call of the run.  [retries] is tested and never
    changed.  [None]: out of fuel. *)
Fixpoint retry_errors (fuel : nat)
    (s3 : nat → list string → delete_response) (n : nat)
    (resp : delete_response) (retries : Z)
    (calls : list (list string * delete_response))
    : option delete_outcome :=
  match fuel with
  | O => None
  | S fuel' =>
      match Errors resp with
      | None => Some (KeyError calls)
      | Some errors =>
          if (0 <? length errors)%nat && (0 <? retries) then
            let resp' := s3 n errors in
            retry_errors fuel' s3 (S n) resp' retries
              (calls ++ [(errors, resp')])
          else Some (Completed calls)
      end
  end.

(** Lines 74-88, one batch: [resp['Deleted']] is read by the test of line
    78, [resp["Errors"]] by the log of line 79 and by the loop. *)
Definition delete_batch (fuel : nat)
    (s3 : nat → list string → delete_response) (n : nat)
    (batch : list string) : option delete_outcome :=
  let resp := s3 n batch in
  match Deleted resp with
  | None => Some (KeyError [(batch, resp)])
  | Some deleted =>
      if decide (length deleted ≠ length batch) then
        match Errors resp with
        | None => Some (KeyError [(batch, resp)])
        | Some _ => retry_errors fuel s3 (S n) resp 3 [(batch, resp)]
        end
      else Some (Completed [(batch, resp)])
  end.

End DeleteRun.

(** ** What a log of [delete_objects] calls may look like *)

Module DeleteSpec.
Import DeleteRun.

(** Each call of [calls] resubmits the keys the previous answer reported
    as errors, and there were some; [prev] is the answer before the first
    of them, [n] the number of the first call. *)
Fixpoint follows (s3 : nat → list string → delete_response) (n : nat)
    (prev : delete_response) (calls : list (list string * delete_response))
    : Prop :=
  match calls with
  | [] => True
  | (keys, resp) :: rest =>
      Errors prev = Some keys ∧ keys ≠ [] ∧ resp = s3 n keys ∧
      follows s3 (S n) resp rest
  end.

(** The last answer of a log that follows [prev]. *)
Definition last_answer (prev : delete_response)
    (calls : list (list string * delete_response)) : delete_response :=
  default prev (last (calls.*2)).

End DeleteSpec.

(** ** The rest of check.py *)

Module CheckRun.

(** [s.endswith(suffix)] *)
Fixpoint endswith (s suffix : string) : bool :=
  if decide (s = suffix) then true
  else match s with
       | EmptyString => false
       | String _ s' => endswith s' suffix
       end.

(** The filter of line 128. *)
Definition is_checked (key : string) : bool :=
  endswith key ".json" || endswith key ".json.gz".

Record check_state := CheckState {
  total_checked : nat;
  uningested_urls : list string
}.

(** Lines 126-140 for one page of keys; the futures are taken in
    submission order. *)
Definition check_page {D} (fuel : nat)
    (scan : string → nat → Fetcher.scan_result D) (S3_BUCKET : string)
    (st : check_state) (page : list string) : option check_state :=
  let contents := filter (λ key, is_checked key = true) page in
  results ←
    mapM (λ key, Check.get_es_docs_for_url fuel scan
                   ("s3://" +:+ S3_BUCKET +:+ "/" +:+ key)) contents;
  Some (CheckState (total_checked st + length contents)
          (uningested_urls st
           ++ (filter (λ r, length r.2 = 0%nat) results).*1)).

Fixpoint check_pages {D} (fuel : nat)
    (scan : string → nat → Fetcher.scan_result D) (S3_BUCKET : string)
    (st : check_state) (pages : list (list string)) : option check_state :=
  match pages with
  | [] => Some st
  | page :: rest =>
      st' ← check_page fuel scan S3_BUCKET st page;
      check_pages fuel scan S3_BUCKET st' rest
  end.

(** Lines 152-153: [while os.path.exists(f'{filename}-{i}.json'): i += 1] *)
Fixpoint free_index (fuel : nat) (files : gset string) (filename : string)
    (i : nat) : option nat :=
  match fuel with
  | O => None
  | S fuel' =>
      if decide (filename +:+ "-" +:+ pretty i +:+ ".json" ∈ files)
      then free_index fuel' files filename (S i)
      else Some i
  end.

(** Lines 147-155: the name of the result, without its extension. *)
Definition result_name (fuel : nat) (files : gset string) : option string :=
  if decide ("result.json" ∈ files) then
    i ← free_index fuel files "result" 0;
    Some ("result" +:+ "-" +:+ pretty i)
  else Some "result".

(** The dictionary dumped by line 158. *)
Record check_output := CheckOutput {
  out_s3_url : string;
  out_total_checked : nat;
  out_total_uningested : nat;
  out_uningested_urls : list string
}.

(** Lines 142-167: the files written, by name. *)
Definition write_result (fuel : nat) (files : gset string)
    (S3_BUCKET S3_PREFIX : string) (st : check_state)
    : option (list (string * check_output)) :=
  if decide (length (uningested_urls st) = 0%nat) then Some []
  else
    filename ← result_name fuel files;
    Some [(filename +:+ ".json",
           CheckOutput ("s3://" +:+ S3_BUCKET +:+ "/" +:+ S3_PREFIX)
             (total_checked st) (length (uningested_urls st))
             (uningested_urls st))].

End CheckRun.

(** ** Services that answer well *)

Module Services.
Import Search.

(** A service that holds [pages] and insists on the protocol: the first
    request must carry the query parameters, every later one must go to
    the address given as [next] and carry none; any other request fails.
    The [n]-th request is answered with status 200 and the [n]-th page;
    every page but the last names the next address, the last one carries
    [terminal] ([None], or the ["NA"] sentinel). *)
Definition paged {V} (pages : list (list (gmap string V)))
    (terminal : option string)
    : nat → string → option (query_params V) → option (response V) :=
  λ n url params,
    let answer :=
      match pages !! n with
      | Some pts =>
          Some (Response 200
                  (Some (Page (Some pts)
                           (if decide (S n = length pages) then terminal
                            else Some "next-page"))))
      | None => None
      end in
    match n, params with
    | O, Some _ => answer
    | S _, None => if decide (url = "next-page") then answer else None
    | _, _ => None
    end.

(** [e] with another external service. *)
Definition with_http {V} (e : env V)
    (http : nat → string → option (query_params V) → option (response V))
    : env V :=
  Env (OPENSEARCH_PARQUET_PREFIX e) (DOMS_QUERY_URL e) (random e)
    (es_scan e) http (fstr e) (utc_iso e).

End Services.

(** * Properties *)

(** ** Strings *)

Module PyStrFacts.
Import PyStr.

Lemma app_nil_l (b : string) : EmptyString +:+ b = b.
Proof. reflexivity. Qed.

Lemma app_cons (x : ascii) (a b : string) :
  String x a +:+ b = String x (a +:+ b).
Proof. reflexivity. Qed.

Ltac sapp := rewrite ?app_cons, ?app_nil_l in *.

Lemma app_assoc (a b c : string) : (a +:+ b) +:+ c = a +:+ (b +:+ c).
Proof. induction a as [|x a IH]; sapp; congruence. Qed.

Lemma app_length (a b : string) :
  String.length (a +:+ b) = (String.length a + String.length b)%nat.
Proof. induction a as [|x a IH]; sapp; simpl; congruence. Qed.

Lemma strip_prefix_app (p r : string) : strip_prefix p (p +:+ r) = Some r.
Proof.
  induction p as [|a p IH]; sapp; simpl; [done |].
  by rewrite decide_True.
Qed.

Lemma strip_prefix_Some (p s r : string) :
  strip_prefix p s = Some r → s = p +:+ r.
Proof.
  revert s. induction p as [|a p IH]; intros s Hs; simpl in *.
  - rewrite app_nil_l. congruence.
  - destruct s as [|b s]; [done |].
    case_decide; [subst b | done].
    by rewrite app_cons, <- (IH s Hs).
Qed.

(** A prefix found in [x +:+ y] that is no longer than [x] lies in [x]. *)
Lemma strip_prefix_short (p x y r : string) :
  strip_prefix p (x +:+ y) = Some r →
  (String.length p ≤ String.length x)%nat →
  is_Some (strip_prefix p x).
Proof.
  revert x. induction p as [|a p IH]; intros x Hs Hlen; simpl in *.
  - eauto.
  - destruct x as [|b x]; simpl in *; [lia |].
    sapp. simpl in Hs.
    case_decide; [| done].
    apply IH; [done | lia].
Qed.

Lemma find_sep_here (sep s r : string) :
  strip_prefix sep s = Some r → find_sep sep s = Some (EmptyString, r).
Proof. intros Hp. destruct s; simpl; by rewrite Hp. Qed.

Lemma find_sep_sound (sep s b a : string) :
  find_sep sep s = Some (b, a) → s = b +:+ (sep +:+ a).
Proof.
  revert b. induction s as [|c s IH]; intros b; simpl.
  - destruct (strip_prefix sep EmptyString) as [r|] eqn:Hp; [| done].
    intros [= <- <-]. by apply strip_prefix_Some in Hp.
  - destruct (strip_prefix sep (String c s)) as [r|] eqn:Hp.
    + intros [= <- <-]. by apply strip_prefix_Some in Hp.
    + destruct (find_sep sep s) as [[b' a']|] eqn:Hf; [| done].
      intros [= <- <-]. sapp. by rewrite <- (IH b').
Qed.

Lemma find_sep_None (sep s : string) :
  find_sep sep s = None → ∀ b a, s ≠ b +:+ (sep +:+ a).
Proof.
  induction s as [|c s IH]; simpl.
  - destruct (strip_prefix sep EmptyString) as [r|] eqn:Hp; [done |].
    intros _ [|x b] a Hs; sapp; [| done].
    rewrite Hs, strip_prefix_app in Hp. done.
  - destruct (strip_prefix sep (String c s)) as [r|] eqn:Hp; [done |].
    destruct (find_sep sep s) as [[b' a']|] eqn:Hf; [done |].
    intros _ [|x b] a Hs; sapp.
    + rewrite Hs, strip_prefix_app in Hp. done.
    + injection Hs as -> Hs. by eapply IH.
Qed.

(** [find_sep] finds an occurrence that follows a text [pre] in which,
    extended by all of [sep_init] (the separator without its last
    character), the separator does not occur. *)
Lemma find_sep_first (sep_init : string) (last : ascii) (pre t : string) :
  contains (sep_init +:+ String last EmptyString) (pre +:+ sep_init) = false →
  find_sep (sep_init +:+ String last EmptyString)
    (pre +:+ ((sep_init +:+ String last EmptyString) +:+ t)) = Some (pre, t).
Proof.
  set (sep := sep_init +:+ String last EmptyString).
  assert (Hlen : String.length sep = S (String.length sep_init)).
  { unfold sep. rewrite app_length. simpl. lia. }
  unfold contains.
  induction pre as [|c pre IH]; intros Hno.
  - rewrite app_nil_l. apply find_sep_here, strip_prefix_app.
  - rewrite app_cons in Hno |- *. simpl in Hno |- *.
    destruct (strip_prefix sep (String c (pre +:+ sep_init)))
      as [r|] eqn:Hp; [done |].
    destruct (find_sep sep (pre +:+ sep_init)) as [[b a]|] eqn:Hf; [done |].
    destruct (strip_prefix sep (String c (pre +:+ (sep +:+ t))))
      as [r|] eqn:Hq.
    + exfalso.
      assert (Hs : is_Some (strip_prefix sep (String c (pre +:+ sep_init)))).
      { apply (strip_prefix_short sep (String c (pre +:+ sep_init))
                 (String last t) r).
        - rewrite app_cons, app_assoc. unfold sep in Hq |- *.
          rewrite app_assoc in Hq. exact Hq.
        - simpl. rewrite app_length. lia. }
      rewrite Hp in Hs. by destruct Hs.
    + by rewrite IH.
Qed.

Lemma split_nonempty (c : ascii) (s : string) : split c s ≠ [].
Proof.
  induction s as [|a s IH]; simpl; [done |].
  case_decide; [done |]. by destruct (split c s).
Qed.

Lemma split_head (c : ascii) (x rest : string) :
  has_char c x = false →
  index0 (split c (x +:+ String c rest)) = Some x.
Proof.
  induction x as [|a x IH]; sapp; simpl.
  - intros _. by rewrite decide_True.
  - case_decide; [done |]. intros Hx. specialize (IH Hx).
    unfold index0 in *.
    destruct (split c (x +:+ String c rest)); simpl in *; congruence.
Qed.

Lemma split_whole (c : ascii) (s : string) :
  has_char c s = false → split c s = [s].
Proof.
  induction s as [|a s IH]; simpl; [done |].
  case_decide; [done |]. intros Hs. by rewrite (IH Hs).
Qed.

End PyStrFacts.

(** ** Job-id extraction *)

Module ExtractionFacts.
Import PyStr PyStrFacts.

Lemma partition_segment (pre x rest : string) :
  contains "job_id=" (pre +:+ "job_id") = false →
  (partition "job_id=" (pre +:+ ("job_id=" +:+ (x +:+ String "/" rest)))).2
  = x +:+ String "/" rest.
Proof.
  intros Hfirst. unfold partition.
  change "job_id=" with ("job_id" +:+ String "=" EmptyString).
  by rewrite (find_sep_first "job_id" "=" pre _ Hfirst).
Qed.

Lemma partition_missing (url : string) :
  contains "job_id=" url = false → (partition "job_id=" url).2 = EmptyString.
Proof.
  unfold contains, partition.
  by destruct (find_sep "job_id=" url) as [[b a]|].
Qed.

(** search.py returns the text between the first [job_id=] and the next
    slash. *)
Lemma search_uuid_segment (pre x rest : string) :
  contains "job_id=" (pre +:+ "job_id") = false →
  has_char "/" x = false →
  Search.s3_url_to_uuid
    (pre +:+ ("job_id=" +:+ (x +:+ String "/" rest))) = x.
Proof.
  intros Hfirst Hx. unfold Search.s3_url_to_uuid.
  by rewrite partition_segment, split_head.
Qed.

(** delete.py does the same for a non-empty identifier. *)
Lemma delete_uuid_segment (pre x rest : string) :
  contains "job_id=" (pre +:+ "job_id") = false →
  has_char "/" x = false →
  x ≠ EmptyString →
  Delete.s3_url_to_uuid
    (pre +:+ ("job_id=" +:+ (x +:+ String "/" rest))) = x.
Proof.
  intros Hfirst Hx Hne. unfold Delete.s3_url_to_uuid.
  rewrite partition_segment, split_head by done. simpl.
  by rewrite decide_False.
Qed.

(** delete.py turns an empty identifier into the sentinel as well. *)
Lemma delete_uuid_empty_segment :
  Delete.s3_url_to_uuid "p/job_id=/part-0.parquet" = "NA".
Proof. reflexivity. Qed.

(** C3. Without a [job_id=] segment the extraction of delete.py returns
    the sentinel ["NA"], while the extraction of search.py returns the
    empty string: the search engine's function has no sentinel. *)
Theorem uuid_without_segment (url : string) :
  contains "job_id=" url = false →
  Delete.s3_url_to_uuid url = "NA" ∧ Search.s3_url_to_uuid url = EmptyString.
Proof.
  intros Hno. unfold Delete.s3_url_to_uuid, Search.s3_url_to_uuid.
  by rewrite partition_missing.
Qed.

Lemma uuid_without_segment_witness :
  contains "job_id=" "s3://bucket/prefix/part-0.parquet" = false ∧
  Delete.s3_url_to_uuid "s3://bucket/prefix/part-0.parquet" = "NA" ∧
  Search.s3_url_to_uuid "s3://bucket/prefix/part-0.parquet" = EmptyString.
Proof.
  split; [reflexivity |].
  apply (uuid_without_segment "s3://bucket/prefix/part-0.parquet").
  reflexivity.
Defined.

End ExtractionFacts.

(** ** The bounded retrying fetcher *)

Module FetcherFacts.
Import Fetcher.

Section Loop.
Context {D : Type} (scan : nat → scan_result D).

(** The loop ends once there is fuel for every remaining retry and the
    last test. *)
Lemma fetch_loop_total (fuel : nat) (st : fetch_state D) :
  (Z.to_nat (retries st) < fuel)%nat → is_Some (fetch_loop fuel scan st).
Proof.
  revert st. induction fuel as [|fuel IH]; intros st Hfuel; [lia |].
  simpl. destruct (0 <? retries st) eqn:Hr; [| eauto].
  apply Z.ltb_lt in Hr.
  destruct (scan (attempts st)); [eauto |].
  apply IH. simpl. lia.
Qed.

(** At most [retries] scans are started. *)
Lemma fetch_loop_attempts (fuel : nat) (st st' : fetch_state D) :
  fetch_loop fuel scan st = Some st' →
  (attempts st ≤ attempts st' ≤ attempts st + Z.to_nat (retries st))%nat.
Proof.
  revert st. induction fuel as [|fuel IH]; intros st; [done |].
  simpl. destruct (0 <? retries st) eqn:Hr.
  - apply Z.ltb_lt in Hr.
    destruct (scan (attempts st)).
    + intros [= <-]. simpl. lia.
    + intros Hl. apply IH in Hl. simpl in Hl. lia.
  - intros [= <-]. lia.
Qed.

(** A loop that hands back the state it got has started no scan. *)
Lemma fetch_loop_fixed (fuel : nat) (st : fetch_state D) :
  fetch_loop fuel scan st = Some st → retries st ≤ 0.
Proof.
  destruct fuel as [|fuel]; [done |].
  simpl. destruct (0 <? retries st) eqn:Hr;
    [| intros _; by apply Z.ltb_ge in Hr].
  destruct (scan (attempts st)); intros Hl; exfalso.
  - assert (Ha : S (attempts st) = attempts st)
      by (injection Hl as Hl; by rewrite <- Hl at 2).
    lia.
  - apply fetch_loop_attempts in Hl. simpl in Hl. lia.
Qed.

(** The records returned are those of the last scan started, whether
    it completed or raised; nothing of an earlier scan is kept. *)
Lemma fetch_loop_records (fuel : nat) (st st' : fetch_state D) :
  fetch_loop fuel scan st = Some st' →
  st' = st ∨
  ∃ k, attempts st' = S k ∧
       (scan k = ScanDone (records st') ∨
        scan k = ScanRaised (records st') ∧ retries st' = 0).
Proof.
  revert st. induction fuel as [|fuel IH]; intros st; [done |].
  simpl. destruct (0 <? retries st) eqn:Hr.
  - apply Z.ltb_lt in Hr.
    destruct (scan (attempts st)) as [docs|partial] eqn:Hs.
    + intros [= <-]. right. exists (attempts st). simpl. eauto.
    + intros Hl. destruct (IH _ Hl) as [-> | Hk]; [| by right].
      right. exists (attempts st). simpl. split; [done |].
      right. split; [done |].
      apply fetch_loop_fixed in Hl. simpl in Hl. lia.
  - intros [= <-]. by left.
Qed.
End Loop.

(** The complete behaviour of a call: the first scan that completes
    decides, and there are at most three. *)
Lemma fetch_loop_cases {D} (scan : nat → scan_result D) (fuel : nat) :
  (4 ≤ fuel)%nat →
  fetch_loop fuel scan fetch_init =
  Some match scan 0%nat with
       | ScanDone d => FetchState d 3 (3 # 2) 1 []
       | ScanRaised _ =>
           match scan 1%nat with
           | ScanDone d => FetchState d 2 ((3 # 2) * 2) 2 [3 # 2]
           | ScanRaised _ =>
               match scan 2%nat with
               | ScanDone d =>
                   FetchState d 1 ((3 # 2) * 2 * 2) 3
                     [3 # 2; (3 # 2) * 2]
               | ScanRaised p =>
                   FetchState p 0 ((3 # 2) * 2 * 2 * 2) 3
                     [3 # 2; (3 # 2) * 2; (3 # 2) * 2 * 2]
               end
           end
       end%Q.
Proof.
  intros Hfuel.
  destruct fuel as [|[|[|[|fuel]]]]; try lia.
  simpl. destruct (scan 0%nat); [done |].
  destruct (scan 1%nat); [done |].
  by destruct (scan 2%nat).
Qed.

(** The delays slept after three failures are 1.5, 3 and 6. *)
Lemma fetch_delays :
  Forall2 Qeq [3 # 2; (3 # 2) * 2; (3 # 2) * 2 * 2]%Q
    [3 # 2; 3 # 1; 6 # 1]%Q.
Proof. repeat constructor. Qed.

(** A scan that completes returns its own documents only. *)
Lemma get_es_docs_success {D} (scan : nat → scan_result D)
    (key : string) (fuel : nat) (r : string * list D) :
  get_es_docs fuel scan key = Some r →
  r.1 = key ∧
  (r.2 = [] ∨ ∃ k, (k < 3)%nat ∧
     (scan k = ScanDone r.2 ∨ scan k = ScanRaised r.2)).
Proof.
  unfold get_es_docs. intros Hr.
  destruct (fetch_loop fuel scan fetch_init) as [st|] eqn:Hl; [| done].
  injection Hr as <-. simpl. split; [done |].
  destruct (fetch_loop_records _ _ _ _ Hl) as [-> | (k & Hk & Hs)];
    [by left | right].
  exists k. apply fetch_loop_attempts in Hl. simpl in Hl.
  split; [lia | tauto].
Qed.

(** C7. When all three scans raise, the call returns its key with the
    documents the last scan had yielded before it raised, not with an
    empty list; this holds for both copies of the function. *)
Theorem fetch_exhausted_keeps_partial {D}
    (scan : string → nat → scan_result D) (key : string) (fuel : nat)
    (p0 p1 p2 : list D) :
  scan key 0%nat = ScanRaised p0 →
  scan key 1%nat = ScanRaised p1 →
  scan key 2%nat = ScanRaised p2 →
  (4 ≤ fuel)%nat →
  Search.get_es_docs_for_id fuel scan key = Some (key, p2) ∧
  Check.get_es_docs_for_url fuel scan key = Some (key, p2).
Proof.
  intros H0 H1 H2 Hfuel.
  unfold Search.get_es_docs_for_id, Check.get_es_docs_for_url, get_es_docs.
  rewrite (fetch_loop_cases _ _ Hfuel), H0, H1, H2. done.
Qed.

Lemma fetch_exhausted_keeps_partial_witness :
  Search.get_es_docs_for_id 4 (λ _ _, ScanRaised ["doc"]) "job-1"
    = Some ("job-1", ["doc"]) ∧
  Check.get_es_docs_for_url 4 (λ _ _, ScanRaised ["doc"]) "job-1"
    = Some ("job-1", ["doc"]).
Proof.
  apply (fetch_exhausted_keeps_partial (λ _ _, ScanRaised ["doc"])
           "job-1" 4 ["doc"] ["doc"] ["doc"]);
    [reflexivity | reflexivity | reflexivity | lia].
Defined.

End FetcherFacts.

(** ** Mapping and classification *)

Module ClassifierFacts.
Import Search.

(** *** The sort *)

Lemma insert_desc_perm (x : string * Z) (l : list (string * Z)) :
  insert_desc x l ≡ₚ x :: l.
Proof.
  induction l as [|y l IH]; simpl; [done |].
  destruct (x.2 <? y.2); [| done].
  rewrite IH. apply Permutation_swap.
Qed.

Lemma sorted_desc_perm (l : list (string * Z)) : sorted_desc l ≡ₚ l.
Proof.
  induction l as [|x l IH]; simpl; [done |].
  by rewrite insert_desc_perm, IH.
Qed.

Lemma sorted_desc_length (l : list (string * Z)) :
  length (sorted_desc l) = length l.
Proof. by rewrite sorted_desc_perm. Qed.

(** The sort is what [sorted(..., reverse=True)] is: descending ... *)
Lemma insert_desc_sorted (x : string * Z) (l : list (string * Z)) :
  StronglySorted (λ a b, b.2 ≤ a.2) l →
  StronglySorted (λ a b, b.2 ≤ a.2) (insert_desc x l).
Proof.
  induction l as [|y l IH]; simpl; intros Hl.
  - by repeat constructor.
  - apply StronglySorted_inv in Hl as [Hl Hy].
    destruct (x.2 <? y.2) eqn:Hx.
    + apply Z.ltb_lt in Hx. constructor; [by apply IH |].
      rewrite insert_desc_perm. constructor; [lia | done].
    + apply Z.ltb_ge in Hx. constructor; [by constructor |].
      constructor; [done |].
      eapply Forall_impl; [exact Hy |]. simpl. lia.
Qed.

Lemma sorted_desc_sorted (l : list (string * Z)) :
  StronglySorted (λ a b, b.2 ≤ a.2) (sorted_desc l).
Proof.
  induction l as [|x l IH]; simpl; [constructor |].
  by apply insert_desc_sorted.
Qed.

(** ... and stable: pairs with one timestamp keep their order. *)
Lemma insert_desc_stable (t : Z) (x : string * Z) (l : list (string * Z)) :
  filter (λ p, p.2 = t) (insert_desc x l) = filter (λ p, p.2 = t) (x :: l).
Proof.
  induction l as [|y l IH]; simpl; [done |].
  destruct (x.2 <? y.2) eqn:Hx; [| done].
  apply Z.ltb_lt in Hx.
  rewrite (filter_cons _ y), IH, !filter_cons.
  repeat case_decide; done || lia.
Qed.

Lemma sorted_desc_stable (t : Z) (l : list (string * Z)) :
  filter (λ p, p.2 = t) (sorted_desc l) = filter (λ p, p.2 = t) l.
Proof.
  induction l as [|x l IH]; simpl; [done |].
  by rewrite insert_desc_stable, !filter_cons, IH.
Qed.

(** The head of the sorted list is the first pair, in the order of the
    entry, that holds the maximum timestamp; the rest is the sorted list
    of the other pairs. *)
Lemma sorted_desc_first_max (l : list (string * Z)) :
  l ≠ [] →
  ∃ l1 kept l2,
    l = l1 ++ kept :: l2 ∧
    Forall (λ p, p.2 < kept.2) l1 ∧
    Forall (λ p, p.2 ≤ kept.2) l2 ∧
    sorted_desc l = kept :: sorted_desc (l1 ++ l2).
Proof.
  induction l as [|x l IH]; [done |]. intros _.
  destruct l as [|y l].
  { exists [], x, []. simpl. by repeat split. }
  destruct IH as (l1 & k & l2 & Hl & H1 & H2 & Hs); [done |].
  change (sorted_desc (x :: y :: l))
    with (insert_desc x (sorted_desc (y :: l))).
  rewrite Hs. simpl insert_desc.
  destruct (x.2 <? k.2) eqn:Hx.
  - apply Z.ltb_lt in Hx.
    exists (x :: l1), k, l2. rewrite Hl. simpl.
    repeat split; [by constructor | done].
  - apply Z.ltb_ge in Hx.
    exists [], x, (y :: l).
    split; [done |]. split; [constructor |].
    split; [| change ([] ++ y :: l) with (y :: l); by rewrite Hs].
    rewrite Hl. apply Forall_app. split.
    + eapply Forall_impl; [exact H1 |]. simpl. lia.
    + constructor; [done |].
      eapply Forall_impl; [exact H2 |]. simpl. lia.
Qed.

(** *** The loop over the shared entries *)

Lemma elem_of_concat {A} (x : A) (ls : list (list A)) :
  x ∈ concat ls ↔ ∃ l, x ∈ l ∧ l ∈ ls.
Proof.
  induction ls as [|l ls IH]; simpl.
  - split; [by intros ?%elem_of_nil |]. by intros (l & _ & ?%elem_of_nil).
  - rewrite elem_of_app, IH. split.
    + intros [Hx | (l' & Hx & Hl')]; [exists l | exists l'];
        rewrite elem_of_cons; auto.
    + intros (l' & Hx & [-> | Hl']%elem_of_cons); eauto.
Qed.

Lemma classify_concat (src_id_map : list (string * list (string * Z)))
    (confirmed : list string) :
  classify src_id_map confirmed =
  confirmed ++ concat (duplicate_jobs <$> shared_entries src_id_map).
Proof.
  unfold classify. generalize (shared_entries src_id_map) as es.
  intros es. revert confirmed.
  induction es as [|e es IH]; intros confirmed; simpl.
  - by rewrite app_nil_r.
  - by rewrite IH, <- app_assoc.
Qed.

Lemma duplicate_jobs_elem (j : string) (entry : list (string * Z)) :
  j ∈ duplicate_jobs entry → j ∈ fst <$> entry.
Proof.
  unfold duplicate_jobs. intros Hj.
  apply list_elem_of_fmap in Hj as (p & -> & Hp).
  apply list_elem_of_fmap_2.
  rewrite <- (sorted_desc_perm entry).
  by eapply subseteq_drop.
Qed.

Lemma classify_elem (src_id_map : list (string * list (string * Z)))
    (confirmed : list string) (j : string) :
  j ∈ classify src_id_map confirmed →
  j ∈ confirmed ∨
  ∃ src entry, (src, entry) ∈ src_id_map ∧ (2 ≤ length entry)%nat ∧
               j ∈ fst <$> entry.
Proof.
  rewrite classify_concat, elem_of_app.
  intros [Hj | Hj]; [by left | right].
  apply elem_of_concat in Hj as (js & Hj & Hjs).
  apply list_elem_of_fmap in Hjs as (entry & -> & He).
  apply list_elem_of_filter in He as [Hlen He].
  apply list_elem_of_fmap in He as ([src entry'] & -> & He).
  exists src, entry'. simpl in *.
  split; [done |]. split; [lia |]. by apply duplicate_jobs_elem.
Qed.

(** *** One shared entry *)

Lemma duplicate_jobs_length (entry : list (string * Z)) :
  length (duplicate_jobs entry) = (length entry - 1)%nat.
Proof.
  unfold duplicate_jobs.
  by rewrite length_fmap, length_drop, sorted_desc_length.
Qed.

Lemma duplicate_jobs_kept (entry : list (string * Z)) :
  entry ≠ [] →
  ∃ l1 kept l2,
    entry = l1 ++ kept :: l2 ∧
    Forall (λ p, p.2 < kept.2) l1 ∧
    Forall (λ p, p.2 ≤ kept.2) l2 ∧
    duplicate_jobs entry ≡ₚ fst <$> (l1 ++ l2).
Proof.
  intros Hne.
  destruct (sorted_desc_first_max entry Hne) as (l1 & k & l2 & He & H1 & H2 & Hs).
  exists l1, k, l2. repeat split; try done.
  unfold duplicate_jobs. rewrite Hs. simpl.
  by rewrite sorted_desc_perm.
Qed.

(** A job that holds the maximum timestamp alone, and has no other pair in
    the entry, is the kept one. *)
Lemma duplicate_jobs_unique_max (l1 l2 : list (string * Z)) (j : string)
    (t : Z) :
  Forall (λ p, p.2 < t ∧ p.1 ≠ j) (l1 ++ l2) →
  j ∉ duplicate_jobs (l1 ++ (j, t) :: l2).
Proof.
  intros Hothers Hj.
  destruct (duplicate_jobs_kept (l1 ++ (j, t) :: l2))
    as (k1 & kept & k2 & He & H1 & H2 & Hperm); [by destruct l1 |].
  assert (Hmax : ∀ p, p ∈ l1 ++ (j, t) :: l2 → p.2 ≤ kept.2).
  { intros p. rewrite He, elem_of_app, elem_of_cons.
    rewrite Forall_forall in H1, H2.
    intros [Hp | [-> | Hp]]; [apply H1 in Hp | | apply H2 in Hp]; lia. }
  assert (Hkept : kept = (j, t)).
  { assert (Hin : kept ∈ l1 ++ (j, t) :: l2)
      by (rewrite He, elem_of_app, elem_of_cons; auto).
    rewrite elem_of_app, elem_of_cons in Hin.
    rewrite Forall_forall in Hothers.
    assert (Ht : t ≤ kept.2).
    { apply (Hmax (j, t)). rewrite elem_of_app, elem_of_cons. auto. }
    destruct Hin as [Hin | [-> | Hin]]; [| done |];
      (assert (Hk : kept ∈ l1 ++ l2) by (rewrite elem_of_app; auto);
       apply Hothers in Hk; lia). }
  subst kept.
  assert (Hrest : k1 ++ k2 ≡ₚ l1 ++ l2).
  { apply (Permutation_cons_inv (a := (j, t))).
    by rewrite !Permutation_middle, <- He. }
  rewrite Hperm, Hrest in Hj.
  apply list_elem_of_fmap in Hj as (p & Hp1 & Hp).
  rewrite Forall_forall in Hothers. apply Hothers in Hp as [_ Hp].
  congruence.
Qed.

Lemma shared_entries_app (m1 m2 : list (string * list (string * Z))) :
  shared_entries (m1 ++ m2) = shared_entries m1 ++ shared_entries m2.
Proof. unfold shared_entries. by rewrite fmap_app, filter_app. Qed.

(** The loop handles the entries one after the other, in the order of
    the dictionary. *)
Lemma classify_app (m1 m2 : list (string * list (string * Z)))
    (confirmed : list string) :
  classify (m1 ++ m2) confirmed
  = confirmed ++ classify m1 [] ++ classify m2 [].
Proof.
  rewrite !classify_concat, shared_entries_app, fmap_app, concat_app.
  done.
Qed.

(** An entry of two or more pairs contributes its [duplicate_jobs], an
    entry of fewer contributes nothing. *)
Lemma classify_cons (src : string) (entry : list (string * Z))
    (m : list (string * list (string * Z))) (confirmed : list string) :
  classify ((src, entry) :: m) confirmed
  = confirmed
    ++ (if decide (2 ≤ length entry)%nat then duplicate_jobs entry else [])
    ++ classify m [].
Proof.
  rewrite !classify_concat. unfold shared_entries. csimpl.
  rewrite filter_cons. simpl.
  repeat case_decide; try lia; by csimpl.
Qed.

(** C2 (amended). For every entry of N ≥ 2 pairs of [src_id_map], wherever
    it stands, the classifier extends [confirmed_duplicates] by the N−1 job
    ids of [duplicate_jobs entry], between what the entries before it and
    the entries after it add: the ids of every pair but one kept pair, the
    first pair in the entry's order that holds the maximum timestamp.  A
    job that holds the maximum timestamp alone and has no other pair in
    the entry is not among them. *)
Theorem classifier_entry (m1 m2 : list (string * list (string * Z)))
    (src : string) (entry : list (string * Z)) (confirmed : list string) :
  (2 ≤ length entry)%nat →
  classify (m1 ++ (src, entry) :: m2) confirmed
  = confirmed ++ classify m1 [] ++ duplicate_jobs entry ++ classify m2 [] ∧
  length (duplicate_jobs entry) = (length entry - 1)%nat ∧
  (∃ l1 kept l2,
     entry = l1 ++ kept :: l2 ∧
     Forall (λ p, p.2 < kept.2) l1 ∧
     Forall (λ p, p.2 ≤ kept.2) l2 ∧
     duplicate_jobs entry ≡ₚ fst <$> (l1 ++ l2)) ∧
  (∀ l1 j t l2,
     entry = l1 ++ (j, t) :: l2 →
     Forall (λ p, p.2 < t ∧ p.1 ≠ j) (l1 ++ l2) →
     j ∉ duplicate_jobs entry).
Proof.
  intros Hlen. split.
  { rewrite classify_app, (classify_cons src entry m2 []).
    by rewrite decide_True by done. }
  split; [apply duplicate_jobs_length |]. split.
  - apply duplicate_jobs_kept. intros ->. simpl in Hlen. lia.
  - intros l1 j t l2 ->. apply duplicate_jobs_unique_max.
Qed.

Lemma classifier_entry_witness :
  classify ([("f0", [("Z", 1)])] ++ ("f1", [("A", 5); ("B", 3)])
              :: [("f2", [("C", 2); ("A", 7); ("D", 4)])]) ["X"]
  = ["X"] ++ classify [("f0", [("Z", 1)])] []
    ++ duplicate_jobs [("A", 5); ("B", 3)]
    ++ classify [("f2", [("C", 2); ("A", 7); ("D", 4)])] [] ∧
  length (duplicate_jobs [("A", 5); ("B", 3)]) = 1%nat ∧
  "A" ∉ duplicate_jobs [("A", 5); ("B", 3)].
Proof.
  destruct (classifier_entry [("f0", [("Z", 1)])]
              [("f2", [("C", 2); ("A", 7); ("D", 4)])] "f1"
              [("A", 5); ("B", 3)] ["X"]) as (Hcl & Hlen & _ & Hmax);
    [simpl; lia |].
  split; [exact Hcl |]. split; [exact Hlen |].
  apply (Hmax [] "A" 5 [("B", 3)]); [reflexivity |].
  simpl. constructor; [| constructor].
  split; [simpl; lia | discriminate].
Defined.

(** C2 as stated fails on a tie: of two pairs sharing the maximum
    timestamp, the second is added. *)
Lemma classifier_tie_adds_max_holder :
  ¬ (∀ j t,
       (j, t) ∈ [("A", 5); ("B", 5)] →
       (∀ p, p ∈ [("A", 5); ("B", 5)] → p.2 ≤ t) →
       j ∉ classify [("f1", [("A", 5); ("B", 5)])] []).
Proof.
  intros Hclaim. apply (Hclaim "B" 5).
  - rewrite !elem_of_cons. auto.
  - intros p. rewrite !elem_of_cons, elem_of_nil.
    intros [-> | [-> | []]]; simpl; lia.
  - vm_compute. apply elem_of_cons. auto.
Qed.

(** *** What the mapping loop puts where *)

Lemma append_at_elem {K A} `{EqDecision K} (k k' : K) (v x : A)
    (d : list (K * list A)) (vs : list A) :
  (k', vs) ∈ PyDict.append_at k v d → x ∈ vs →
  x = v ∨ ∃ vs0, (k', vs0) ∈ d ∧ x ∈ vs0.
Proof.
  induction d as [|[k0 vs0] d IH]; simpl.
  - intros [= -> ->]%list_elem_of_singleton
      ->%list_elem_of_singleton. by left.
  - case_decide; subst.
    + intros [[= -> ->] | Hin]%elem_of_cons.
      * intros [Hx | ->%list_elem_of_singleton]%elem_of_app; [| by left].
        right. exists vs0. split; [apply elem_of_cons; auto | done].
      * intros Hx. right. exists vs. split; [apply elem_of_cons; auto | done].
    + intros [[= -> ->] | Hin]%elem_of_cons Hx.
      * right. exists vs0. split; [apply elem_of_cons; auto | done].
      * destruct (IH Hin Hx) as [-> | (vs1 & Hin1 & Hx1)]; [by left |].
        right. exists vs1. split; [apply elem_of_cons; auto | done].
Qed.

Lemma map_docs_elem (id : string) (docs : list file_source)
    (m : list (string * list (string * Z))) (src : string)
    (entry : list (string * Z)) (p : string * Z) :
  (src, entry) ∈ foldl (map_doc id) m docs → p ∈ entry →
  (p.1 = id ∧ docs ≠ []) ∨ ∃ entry0, (src, entry0) ∈ m ∧ p ∈ entry0.
Proof.
  revert m entry. induction docs as [|doc docs IH]; intros m entry; simpl.
  - intros He Hp. right. eauto.
  - intros He Hp.
    destruct (IH _ _ He Hp) as [[Hid _] | (entry0 & He0 & Hp0)];
      [by left |].
    unfold map_doc in He0.
    destruct (append_at_elem _ _ _ _ _ _ He0 Hp0) as [-> | Hold];
      [by left | by right].
Qed.

Lemma map_records_inv (recs : list (string * list file_source))
    (acc : list string * list (string * list (string * Z))) :
  (∀ j, j ∈ (foldl map_record acc recs).1 →
        j ∈ acc.1 ∨ (j, []) ∈ recs) ∧
  (∀ src entry p,
     (src, entry) ∈ (foldl map_record acc recs).2 → p ∈ entry →
     (∃ entry0, (src, entry0) ∈ acc.2 ∧ p ∈ entry0) ∨
     ∃ docs, (p.1, docs) ∈ recs ∧ docs ≠ []).
Proof.
  revert acc. induction recs as [|[id docs] recs IH]; intros acc; simpl.
  - split; [by left | intros; left; eauto].
  - destruct (IH (map_record acc (id, docs))) as [IH1 IH2].
    unfold map_record in IH1, IH2. simpl in IH1, IH2. split.
    + intros j Hj. apply IH1 in Hj as [Hj | Hj];
        [| right; apply elem_of_cons; auto].
      case_decide as Hlen; simpl in Hj; [| by left].
      apply elem_of_app in Hj as [Hj | ->%list_elem_of_singleton];
        [by left | right].
      apply nil_length_inv in Hlen as ->. apply elem_of_cons. auto.
    + intros src entry p He Hp.
      destruct (IH2 _ _ _ He Hp) as [(entry0 & He0 & Hp0) | (ds & Hds & Hne)];
        [| right; exists ds; split; [apply elem_of_cons; auto | done]].
      case_decide as Hlen; simpl in He0; [left; eauto |].
      destruct (map_docs_elem _ _ _ _ _ _ He0 Hp0) as [[<- Hne] | Hold];
        [right | by left].
      exists docs. split; [apply elem_of_cons; auto | done].
Qed.

Lemma NoDup_fst_functional {A B} (l : list (A * B)) (x : A) (y1 y2 : B) :
  NoDup (l.*1) → (x, y1) ∈ l → (x, y2) ∈ l → y1 = y2.
Proof.
  induction l as [|[a b] l IH]; csimpl; [by intros _ ?%elem_of_nil |].
  intros [Hnotin Hnodup]%NoDup_cons.
  intros [[= -> ->] | H1]%elem_of_cons [[= ->] | H2]%elem_of_cons.
  - done.
  - destruct Hnotin. by apply (list_elem_of_fmap_2 fst _ (a, y2)).
  - subst. destruct Hnotin. by apply (list_elem_of_fmap_2 fst _ (a, y1)).
  - by apply IH.
Qed.

Lemma unconfirmed_had_no_records
    (ingest_records : list (string * list file_source)) (j : string) :
  j ∈ (map_records ingest_records).1 → (j, []) ∈ ingest_records.
Proof.
  intros Hj.
  destruct (map_records_inv ingest_records ([], [])) as [Hun _].
  by destruct (Hun j Hj) as [?%elem_of_nil |].
Qed.

Lemma classified_in_shared_entry
    (src_id_map : list (string * list (string * Z))) (j : string) :
  j ∈ classify src_id_map [] →
  ∃ src entry, (src, entry) ∈ src_id_map ∧
               (2 ≤ length entry)%nat ∧ j ∈ entry.*1.
Proof.
  intros Hj. by destruct (classify_elem _ _ _ Hj) as [?%elem_of_nil |].
Qed.

Lemma unconfirmed_not_classified
    (ingest_records : list (string * list file_source)) (j : string) :
  NoDup (ingest_records.*1) →
  j ∈ (map_records ingest_records).1 →
  j ∉ classify (map_records ingest_records).2 [].
Proof.
  intros Hnodup Hj Hc.
  destruct (classified_in_shared_entry _ _ Hc) as (src & entry & He & _ & Hje).
  apply list_elem_of_fmap in Hje as (p & -> & Hp).
  destruct (map_records_inv ingest_records ([], [])) as [_ Hmap].
  destruct (Hmap _ _ _ He Hp) as [(? & ?%elem_of_nil & _) | (docs & Hd & Hne)];
    [done |].
  apply unconfirmed_had_no_records in Hj.
  by rewrite (NoDup_fst_functional _ _ _ _ Hnodup Hd Hj) in Hne.
Qed.

(** C6. For fetch results with one result per job id, every job of
    [unconfirmed_duplicates] had an empty result, every job the
    classifier confirms occurs in an entry of at least two pairs, and no
    job is in both lists. *)
Theorem classifier_disjoint (ingest_records : list (string * list file_source)) :
  NoDup (ingest_records.*1) →
  (∀ j, j ∈ (map_records ingest_records).1 → (j, []) ∈ ingest_records) ∧
  (∀ j, j ∈ classify (map_records ingest_records).2 [] →
        ∃ src entry, (src, entry) ∈ (map_records ingest_records).2 ∧
                     (2 ≤ length entry)%nat ∧ j ∈ entry.*1) ∧
  (∀ j, j ∈ (map_records ingest_records).1 →
        j ∉ classify (map_records ingest_records).2 []).
Proof.
  intros Hnodup. split; [| split].
  - apply unconfirmed_had_no_records.
  - intros j. apply classified_in_shared_entry.
  - intros j. by apply unconfirmed_not_classified.
Qed.

Lemma classifier_disjoint_witness :
  "B" ∉ classify
          (map_records [("A", [FileSource "f1" 5]); ("B", []);
                        ("C", [FileSource "f1" 3])]).2 [].
Proof.
  apply (classifier_disjoint [("A", [FileSource "f1" 5]); ("B", []);
                              ("C", [FileSource "f1" 3])]).
  - simpl. repeat constructor; rewrite ?elem_of_cons, ?elem_of_nil;
      intros Hx; decompose [or] Hx; done.
  - vm_compute. apply elem_of_cons. auto.
Defined.
End ClassifierFacts.

(** ** The external confirmation fallback *)

Module FallbackFacts.
Import Search.

Section Facts.
Context {V : Type} `{EqDecision V}.
Implicit Types (e : env V) (w : world) (acc : lists).

(** The handler of a missing entry: [uuid_to_stats[uuid]] raises, the
    bare [except] appends the job to [suspected_duplicates], and no
    request is issued.  The script never gets there: every job it puts
    in [unconfirmed_duplicates] has an entry, in whatever order the
    fetches complete (lemma [unconfirmed_have_stats] below). *)
Lemma fallback_absent_stats (fuel : nat) e
    (uuid_to_stats : gmap string (stats_source V)) acc (uuid : string) w :
  uuid_to_stats !! uuid = None →
  fallback_step fuel e uuid_to_stats acc uuid w =
  (Ok (Lists (confirmed_duplicates acc)
         (suspected_duplicates acc ++ [uuid])
         (missing_ingest_records acc)), w).
Proof.
  intros Hnone.
  unfold fallback_step, try_except, check_job, bind, item.
  by rewrite Hnone.
Qed.

(** *** The retry loop of a page request *)

(** While the service keeps answering with a status other than 200, the
    loop uses all of its fuel: one sleep and one request per unit. *)
Lemma retry_loop_never_ok (fuel : nat) e (url : string)
    (params : option (query_params V)) (retries delay : Z)
    (resp : response V) w :
  (∀ n u p, ∃ r, http_get e n u p = Some r ∧ status_code r ≠ 200) →
  0 < retries →
  status_code resp ≠ 200 →
  retry_loop fuel e url params retries delay resp w =
  (OutOfFuel,
   World (requests w + fuel)
     (sleeps w ++ ((λ i : nat, delay * 2 ^ Z.of_nat i) <$> seq 0 fuel))).
Proof.
  intros Hsvc Hretries. revert delay resp w.
  induction fuel as [|fuel IH]; intros delay resp w Hresp; simpl.
  - unfold out_of_fuel. destruct w. simpl.
    by rewrite Nat.add_0_r, app_nil_r.
  - assert (Hcond : (0 <? retries) && negb (status_code resp =? 200) = true).
    { apply andb_true_intro. split; [by apply Z.ltb_lt |].
      apply negb_true_iff. by apply Z.eqb_neq. }
    rewrite Hcond. unfold bind at 1 2. unfold sleep, session_get. simpl.
    destruct (Hsvc (requests w) url params) as (r & -> & Hr).
    rewrite (IH _ r _ Hr). simpl. f_equal. f_equal; [lia |].
    rewrite <- app_assoc. f_equal. simpl. f_equal; [lia |].
    rewrite <- fmap_S_seq, <- list_fmap_compose.
    apply list_fmap_ext. intros _ i _. simpl.
    rewrite Nat2Z.inj_succ, Z.pow_succ_r by lia. lia.
Qed.

(** C4. With a service that never answers 200 the retry loop never ends:
    whatever the fuel, the check of the job uses it up, issuing one
    request per unit of fuel, and the job is never put in
    [suspected_duplicates]. *)
Theorem fallback_retries_forever (fuel : nat) e
    (uuid_to_stats : gmap string (stats_source V)) acc (uuid : string) w
    (parquet_stats : stats_source V) :
  (∀ n u p, ∃ r, http_get e n u p = Some r ∧ status_code r ≠ 200) →
  DOMS_QUERY_URL e ≠ "NA" →
  uuid_to_stats !! uuid = Some parquet_stats →
  is_Some (build_params e parquet_stats) →
  fallback_step fuel e uuid_to_stats acc uuid w =
  (OutOfFuel,
   World (requests w + fuel)
     (sleeps w ++ ((λ i : nat, 2 ^ Z.of_nat i) <$> seq 0 (fuel - 1)))).
Proof.
  intros Hsvc Hurl Hstats [params Hparams].
  unfold fallback_step, try_except, check_job, bind at 1 2 3 4, item.
  rewrite Hstats. simpl. unfold ret at 1. rewrite Hparams. unfold ret at 1.
  destruct fuel as [|fuel]; simpl.
  - unfold out_of_fuel. destruct w; simpl.
    by rewrite Nat.add_0_r, app_nil_r.
  - rewrite decide_False by done.
    unfold bind at 1 2. unfold session_get at 1.
    destruct (Hsvc (requests w) (DOMS_QUERY_URL e) (Some params))
      as (r & -> & Hr).
    rewrite (retry_loop_never_ok fuel e _ _ 2 1 r _ Hsvc) by (done || lia).
    simpl. rewrite Nat.sub_0_r. f_equal. f_equal; [lia |].
    f_equal. apply list_fmap_ext. intros _ i _. lia.
Qed.
End Facts.

Lemma fallback_retries_forever_witness :
  fallback_step 5 (Scenario.env_of Scenario.no_files Scenario.always_500)
    {["D" := Scenario.stats_of "s3://bucket/prefix/job_id=D/x"]}
    (Lists [] [] []) "D" Scenario.w0 =
  (OutOfFuel, World 5 [1; 2; 4; 8]).
Proof.
  apply (fallback_retries_forever 5
           (Scenario.env_of Scenario.no_files Scenario.always_500)
           {["D" := Scenario.stats_of "s3://bucket/prefix/job_id=D/x"]}
           (Lists [] [] []) "D" Scenario.w0
           (Scenario.stats_of "s3://bucket/prefix/job_id=D/x")).
  - intros n u p. exists (Response 500 None). split; [reflexivity | done].
  - done.
  - reflexivity.
  - eexists. vm_compute. reflexivity.
Defined.

End FallbackFacts.

(** ** Source enumeration and the fetch of every job *)

Module EnumFacts.
Import Search.

Section Facts.
Context {V : Type} `{EqDecision V}.
Implicit Types (e : env V) (st : enum_state V) (src : stats_source V).

(** The first record seen for a job id is retained, and no random number
    is drawn for it. *)
Lemma enum_step_first e st src :
  startswith (s3_url src) (OPENSEARCH_PARQUET_PREFIX e) = true →
  uuid_to_stats st !! s3_url_to_uuid (s3_url src) = None →
  uuid_to_stats (enum_step e st src) !! s3_url_to_uuid (s3_url src)
    = Some src ∧
  draws (enum_step e st src) = draws st.
Proof.
  intros Hpre Hnone. unfold enum_step. rewrite Hpre, Hnone. simpl.
  by rewrite lookup_insert_eq.
Qed.

(** A record outside the prefix is only counted. *)
Lemma enum_step_skipped e st src :
  startswith (s3_url src) (OPENSEARCH_PARQUET_PREFIX e) = false →
  enum_step e st src =
  EnumState (ingest_uuids st) (uuid_to_stats st) (docs st + 1) (added st)
    (skipped st + 1) (draws st).
Proof. intros Hpre. unfold enum_step. by rewrite Hpre. Qed.

Lemma enum_step_dom e st src :
  dom (uuid_to_stats st) = ingest_uuids st →
  dom (uuid_to_stats (enum_step e st src)) = ingest_uuids (enum_step e st src).
Proof.
  intros Hdom. unfold enum_step.
  destruct (startswith _ _); simpl; [| done].
  destruct (uuid_to_stats st !! _) as [old|] eqn:Hold; simpl.
  - assert (Hin : s3_url_to_uuid (s3_url src) ∈ dom (uuid_to_stats st))
      by (apply elem_of_dom; eauto).
    rewrite Hdom in Hin.
    destruct (Qlt_le_dec _ _); [by rewrite dom_insert_L, Hdom |].
    rewrite Hdom. symmetry. apply subseteq_union_1_L.
    by apply singleton_subseteq_l.
  - by rewrite dom_insert_L, Hdom.
Qed.

Lemma foldl_enum_dom e (scroll : list (stats_source V)) st :
  dom (uuid_to_stats st) = ingest_uuids st →
  dom (uuid_to_stats (foldl (enum_step e) st scroll))
    = ingest_uuids (foldl (enum_step e) st scroll).
Proof.
  revert st. induction scroll as [|src scroll IH]; intros st Hdom; simpl;
    [done |].
  by apply IH, enum_step_dom.
Qed.

(** The jobs with a stats entry are exactly the enumerated jobs. *)
Lemma enumerate_dom e (scroll : list (stats_source V)) :
  dom (uuid_to_stats (enumerate e scroll)) = ingest_uuids (enumerate e scroll).
Proof. apply foldl_enum_dom. simpl. by rewrite dom_empty_L. Qed.
End Facts.

(** With fuel for three scans and the last test every fetch returns, and
    the results carry the ids they were asked for. *)
Lemma fetch_all {D} (scan : string → nat → Fetcher.scan_result D)
    (fuel : nat) (ids : list string) :
  (4 ≤ fuel)%nat →
  ∃ recs, mapM (get_es_docs_for_id fuel scan) ids = Some recs ∧
          recs.*1 = ids.
Proof.
  intros Hfuel. induction ids as [|id ids (recs & Hrecs & Hids)].
  - by exists [].
  - destruct (FetcherFacts.fetch_loop_total (scan id) fuel Fetcher.fetch_init)
      as [st Hst]; [simpl; lia |].
    exists ((id, Fetcher.records st) :: recs). split.
    + assert (Hget : get_es_docs_for_id fuel scan id
                     = Some (id, Fetcher.records st)).
      { unfold get_es_docs_for_id, Fetcher.get_es_docs. by rewrite Hst. }
      apply mapM_Some. constructor; [exact Hget | by apply mapM_Some].
    + csimpl. by rewrite Hids.
Qed.

(** The results carry the ids they were asked for, each once. *)
Lemma fetch_keys {D} (scan : string → nat → Fetcher.scan_result D)
    (fuel : nat) (ids : list string) (recs : list (string * list D)) :
  mapM (get_es_docs_for_id fuel scan) ids = Some recs → recs.*1 = ids.
Proof.
  intros Hrecs. apply (mapM_fmap_Some_inv _ fst _ _ Hrecs).
  intros id r. unfold get_es_docs_for_id, Fetcher.get_es_docs.
  destruct (Fetcher.fetch_loop fuel (scan id) Fetcher.fetch_init); [| done].
  by intros [= <-].
Qed.

Lemma fetch_set_nodup {D} (scan : string → nat → Fetcher.scan_result D)
    (fuel : nat) (ids : gset string) (recs : list (string * list D)) :
  mapM (get_es_docs_for_id fuel scan) (elements ids) = Some recs →
  NoDup (recs.*1).
Proof. intros ->%fetch_keys. apply NoDup_elements. Qed.

(** Whatever the order in which the fetches complete, every job of
    [unconfirmed_duplicates] has a stats entry. *)
Lemma unconfirmed_have_stats {V} (e : env V)
    (scroll : list (stats_source V))
    (ingest_records : list (string * list file_source)) (uuid : string) :
  ingest_records.*1 ≡ₚ elements (ingest_uuids (enumerate e scroll)) →
  uuid ∈ (map_records ingest_records).1 →
  is_Some (uuid_to_stats (enumerate e scroll) !! uuid).
Proof.
  intros Hids Hun.
  apply elem_of_dom. rewrite enumerate_dom.
  apply elem_of_elements. rewrite <- Hids.
  apply ClassifierFacts.unconfirmed_had_no_records in Hun.
  by apply (list_elem_of_fmap_2 fst _ (uuid, [])).
Qed.

(** C10. Every enumerated job id has a retained stats record: the first
    record seen for an id is stored without drawing a random number, and
    later records only replace it.  Hence every job the mapping loop puts
    in [unconfirmed_duplicates] has a stats record when the fallback looks
    it up. *)
Theorem enumerated_jobs_have_stats {V} (e : env V)
    (scroll : list (stats_source V)) (fuel : nat) :
  (4 ≤ fuel)%nat →
  (∀ uuid, uuid ∈ ingest_uuids (enumerate e scroll) ↔
           is_Some (uuid_to_stats (enumerate e scroll) !! uuid)) ∧
  (∀ st src,
     startswith (s3_url src) (OPENSEARCH_PARQUET_PREFIX e) = true →
     uuid_to_stats st !! s3_url_to_uuid (s3_url src) = None →
     uuid_to_stats (enum_step e st src) !! s3_url_to_uuid (s3_url src)
       = Some src) ∧
  ∃ ingest_records,
    mapM (get_es_docs_for_id fuel (es_scan e))
      (elements (ingest_uuids (enumerate e scroll))) = Some ingest_records ∧
    ∀ uuid, uuid ∈ (map_records ingest_records).1 →
            is_Some (uuid_to_stats (enumerate e scroll) !! uuid).
Proof.
  intros Hfuel.
  assert (Hdom : ∀ uuid, uuid ∈ ingest_uuids (enumerate e scroll) ↔
                   is_Some (uuid_to_stats (enumerate e scroll) !! uuid)).
  { intros uuid. by rewrite <- enumerate_dom, elem_of_dom. }
  split; [done |]. split.
  { intros st src Hpre Hnone. by apply enum_step_first. }
  destruct (fetch_all (es_scan e) fuel
              (elements (ingest_uuids (enumerate e scroll))) Hfuel)
    as (recs & Hrecs & Hids).
  exists recs. split; [done |].
  intros uuid Hun. apply Hdom, elem_of_elements. rewrite <- Hids.
  destruct (ClassifierFacts.map_records_inv recs ([], [])) as [Hinv _].
  destruct (Hinv uuid Hun) as [?%elem_of_nil | Hin]; [done |].
  by apply (list_elem_of_fmap_2 fst _ (uuid, [])).
Qed.

Lemma enumerated_jobs_have_stats_witness :
  is_Some
    (uuid_to_stats
       (enumerate (Scenario.env_of Scenario.no_files Scenario.always_500)
          [Scenario.stats_of "s3://bucket/prefix/job_id=D/x";
           Scenario.stats_of "s3://elsewhere/job_id=E/x"])
     !! "D").
Proof.
  destruct (enumerated_jobs_have_stats
              (Scenario.env_of Scenario.no_files Scenario.always_500)
              [Scenario.stats_of "s3://bucket/prefix/job_id=D/x";
               Scenario.stats_of "s3://elsewhere/job_id=E/x"] 4)
    as (Hdom & _ & _); [lia |].
  apply Hdom. vm_compute. reflexivity.
Defined.
End EnumFacts.

(** ** The loop over the unconfirmed jobs and the output *)

Module RunFacts.
Import Search.

Section Facts.
Context {V : Type} `{EqDecision V}.
Implicit Types (e : env V) (w : world) (acc : lists).

(** One job: the check runs out of fuel, or the job is appended to exactly
    one of the three lists; an exception never leaves the step. *)
Lemma fallback_step_cases (fuel : nat) e
    (uuid_to_stats : gmap string (stats_source V)) acc (uuid : string) w :
  ∃ w',
    fallback_step fuel e uuid_to_stats acc uuid w = (OutOfFuel, w') ∨
    fallback_step fuel e uuid_to_stats acc uuid w =
      (Ok (Lists (confirmed_duplicates acc ++ [uuid])
             (suspected_duplicates acc) (missing_ingest_records acc)), w') ∨
    fallback_step fuel e uuid_to_stats acc uuid w =
      (Ok (Lists (confirmed_duplicates acc)
             (suspected_duplicates acc ++ [uuid])
             (missing_ingest_records acc)), w') ∨
    fallback_step fuel e uuid_to_stats acc uuid w =
      (Ok (Lists (confirmed_duplicates acc)
             (suspected_duplicates acc)
             (missing_ingest_records acc ++ [uuid])), w').
Proof.
  unfold fallback_step, try_except, bind.
  destruct (check_job fuel e uuid_to_stats uuid w) as [[[|] | |] w'];
    exists w'; unfold ret; auto.
Qed.

(** The loop only appends: each unconfirmed job goes to one list. *)
Lemma fallback_split (fuel : nat) e
    (uuid_to_stats : gmap string (stats_source V))
    (unconfirmed : list string) acc w (ls : lists) w' :
  fallback fuel e uuid_to_stats unconfirmed acc w = (Ok ls, w') →
  ∃ c s m,
    confirmed_duplicates ls = confirmed_duplicates acc ++ c ∧
    suspected_duplicates ls = suspected_duplicates acc ++ s ∧
    missing_ingest_records ls = missing_ingest_records acc ++ m ∧
    unconfirmed ≡ₚ c ++ s ++ m.
Proof.
  revert acc w.
  induction unconfirmed as [|uuid rest IH]; intros acc w; simpl.
  - intros [= <- <-]. exists [], [], []. by rewrite !app_nil_r.
  - unfold bind.
    destruct (fallback_step_cases fuel e uuid_to_stats acc uuid w)
      as (w1 & [-> | [-> | [-> | ->]]]); [done | | |];
      intros (c & s & m & Hc & Hs & Hm & Hperm)%IH; simpl in *.
    + exists (uuid :: c), s, m. rewrite Hc, Hs, Hm, <- app_assoc.
      by rewrite Hperm.
    + exists c, (uuid :: s), m. rewrite Hc, Hs, Hm, <- app_assoc.
      split; [done |]. split; [done |]. split; [done |].
      by rewrite Hperm, Permutation_middle.
    + exists c, s, (uuid :: m). rewrite Hc, Hs, Hm, <- app_assoc.
      split; [done |]. split; [done |]. split; [done |].
      by rewrite Hperm, !Permutation_middle.
Qed.

(** No exception leaves the loop. *)
Lemma fallback_no_exc (fuel : nat) e
    (uuid_to_stats : gmap string (stats_source V))
    (unconfirmed : list string) acc w :
  (fallback fuel e uuid_to_stats unconfirmed acc w).1 ≠ Exc.
Proof.
  revert acc w.
  induction unconfirmed as [|uuid rest IH]; intros acc w; simpl; [done |].
  unfold bind.
  destruct (fallback_step_cases fuel e uuid_to_stats acc uuid w)
    as (w1 & [-> | [-> | [-> | ->]]]); [done | apply IH ..].
Qed.

(** C9 (amended). With both lists empty nothing is written.  Otherwise the
    fallback loop either runs out of fuel, and so does the script, or it
    ends and [search_result.json] is written once with the three lists;
    no exception leaves the script.  With no unconfirmed job the file is
    always written. *)
Theorem report_writes (fuel : nat) e
    (uuid_to_stats : gmap string (stats_source V))
    (unconfirmed confirmed : list string) w :
  (unconfirmed = [] ∧ confirmed = [] →
   report fuel e uuid_to_stats unconfirmed confirmed w = (Ok [], w)) ∧
  (¬ (unconfirmed = [] ∧ confirmed = []) →
   (∃ ls w',
      fallback fuel e uuid_to_stats unconfirmed (Lists confirmed [] []) w
        = (Ok ls, w') ∧
      report fuel e uuid_to_stats unconfirmed confirmed w =
        (Ok [("search_result.json",
              Output (confirmed_duplicates ls) (suspected_duplicates ls)
                (missing_ingest_records ls))], w')) ∨
   (∃ w',
      fallback fuel e uuid_to_stats unconfirmed (Lists confirmed [] []) w
        = (OutOfFuel, w') ∧
      report fuel e uuid_to_stats unconfirmed confirmed w
        = (OutOfFuel, w'))) ∧
  (unconfirmed = [] → confirmed ≠ [] →
   report fuel e uuid_to_stats unconfirmed confirmed w =
     (Ok [("search_result.json", Output confirmed [] [])], w)).
Proof.
  unfold report. split; [| split].
  - intros [-> ->]. rewrite decide_True; done.
  - intros Hne. rewrite decide_False.
    2:{ intros [Hu Hc]. apply Hne.
        by rewrite (nil_length_inv _ Hu), (nil_length_inv _ Hc). }
    unfold bind.
    pose proof (fallback_no_exc fuel e uuid_to_stats unconfirmed
                  (Lists confirmed [] []) w) as Hexc.
    destruct (fallback fuel e uuid_to_stats unconfirmed
                (Lists confirmed [] []) w) as [[ls | |] w'];
      [left | done | right]; eauto.
  - intros -> Hc. rewrite decide_False; [done |].
    intros [_ Hlen]. by apply nil_length_inv in Hlen.
Qed.
End Facts.

(** With fuel for the fetches, the script is the report on the lists the
    mapping loop and the classifier build from one result per job. *)
Lemma run_report {V} `{EqDecision V} (fuel : nat) (e : env V)
    (scroll : list (stats_source V)) (w : world) :
  (4 ≤ fuel)%nat →
  ∃ ingest_records,
    NoDup (ingest_records.*1) ∧
    run fuel e scroll w =
    report fuel e (uuid_to_stats (enumerate e scroll))
      (map_records ingest_records).1
      (classify (map_records ingest_records).2 []) w.
Proof.
  intros Hfuel.
  destruct (EnumFacts.fetch_all (es_scan e) fuel
              (elements (ingest_uuids (enumerate e scroll))) Hfuel)
    as (recs & Hrecs & _).
  exists recs. split; [by eapply EnumFacts.fetch_set_nodup |].
  unfold run. by rewrite Hrecs.
Qed.

Lemma report_writes_witness :
  report 6 (Scenario.env_of Scenario.no_files Scenario.always_500)
    ∅ [] [] Scenario.w0 = (Ok [], Scenario.w0) ∧
  report 6 (Scenario.env_of Scenario.no_files Scenario.always_500)
    ∅ [] ["B"] Scenario.w0 =
  (Ok [("search_result.json", Output ["B"] [] [])], Scenario.w0).
Proof.
  split.
  - apply (report_writes 6
             (Scenario.env_of Scenario.no_files Scenario.always_500)
             ∅ [] [] Scenario.w0).
    split; reflexivity.
  - apply (report_writes 6
             (Scenario.env_of Scenario.no_files Scenario.always_500)
             ∅ [] ["B"] Scenario.w0); [reflexivity | discriminate].
Defined.

(** C9 as stated fails: a run that finds nothing writes no file. *)
Lemma empty_run_writes_nothing :
  ¬ (∃ out w,
       run 4 (Scenario.env_of Scenario.no_files Scenario.always_500) []
         Scenario.w0 = (Ok [("search_result.json", out)], w)).
Proof. intros (out & w & Hrun). vm_compute in Hrun. discriminate Hrun. Qed.
End RunFacts.

(** ** The confirmed list *)

Module ConfirmedFacts.
Import Search.

Lemma map_records_nodup (recs : list (string * list file_source))
    (acc : list string * list (string * list (string * Z))) :
  NoDup (acc.1 ++ recs.*1) → NoDup (foldl map_record acc recs).1.
Proof.
  revert acc. induction recs as [|[id docs] recs IH]; intros acc; csimpl.
  - by rewrite app_nil_r.
  - intros Hnodup. apply IH. unfold map_record. simpl.
    case_decide; simpl.
    + by rewrite <- app_assoc.
    + rewrite <- Permutation_middle in Hnodup.
      by apply NoDup_cons in Hnodup as [_ ?].
Qed.

(** C5 (amended). The confirmed list of the output is not deduplicated:
    it is the classifier's additions, one job id per pair that is not kept
    in each shared entry, in the order of the entries, followed by the
    unconfirmed jobs the fallback confirmed.  Only the latter part is free
    of repeats, and it shares no job with the former. *)
Theorem confirmed_result {V} `{EqDecision V} (fuel : nat) (e : env V)
    (uuid_to_stats : gmap string (stats_source V))
    (ingest_records : list (string * list file_source))
    (w w' : world) (ls : lists) :
  NoDup (ingest_records.*1) →
  fallback fuel e uuid_to_stats (map_records ingest_records).1
    (Lists (classify (map_records ingest_records).2 []) [] []) w
    = (Ok ls, w') →
  ∃ c,
    confirmed_duplicates ls =
      concat (duplicate_jobs <$> shared_entries (map_records ingest_records).2)
      ++ c ∧
    NoDup c ∧
    ∀ j, j ∈ c →
         j ∈ (map_records ingest_records).1 ∧
         j ∉ classify (map_records ingest_records).2 [].
Proof.
  intros Hnodup Hrun.
  apply RunFacts.fallback_split in Hrun as (c & s & m & Hc & _ & _ & Hperm).
  simpl in Hc. exists c.
  split; [by rewrite Hc, ClassifierFacts.classify_concat |].
  assert (Hun : NoDup (map_records ingest_records).1)
    by by apply map_records_nodup.
  rewrite Hperm in Hun. apply NoDup_app in Hun as (Hnc & _ & _).
  split; [done |].
  intros j Hj.
  assert (Hin : j ∈ (map_records ingest_records).1)
    by (rewrite Hperm, elem_of_app; auto).
  split; [done |].
  by apply ClassifierFacts.unconfirmed_not_classified.
Qed.

Lemma confirmed_result_witness :
  ∃ c,
    ["B"; "B"] =
      concat (duplicate_jobs <$> shared_entries
                (map_records
                   [("A", [FileSource "f1" 5; FileSource "f2" 5]);
                    ("B", [FileSource "f1" 3; FileSource "f2" 3])]).2)
      ++ c ∧
    NoDup c ∧
    ∀ j, j ∈ c →
         j ∈ (map_records
                [("A", [FileSource "f1" 5; FileSource "f2" 5]);
                 ("B", [FileSource "f1" 3; FileSource "f2" 3])]).1 ∧
         j ∉ classify
               (map_records
                  [("A", [FileSource "f1" 5; FileSource "f2" 5]);
                   ("B", [FileSource "f1" 3; FileSource "f2" 3])]).2 [].
Proof.
  apply (confirmed_result 4
           (Scenario.env_of Scenario.shared_files Scenario.always_500) ∅
           [("A", [FileSource "f1" 5; FileSource "f2" 5]);
            ("B", [FileSource "f1" 3; FileSource "f2" 3])]
           Scenario.w0 Scenario.w0 (Lists ["B"; "B"] [] [])).
  - simpl. repeat constructor; rewrite ?elem_of_cons, ?elem_of_nil;
      intros Hx; decompose [or] Hx; done.
  - reflexivity.
Defined.

(** C5 as stated fails: a job that is not the latest under two shared
    source files is written twice. *)
Lemma confirmed_repeats_job :
  ¬ (∀ out w,
       run 4 (Scenario.env_of Scenario.shared_files Scenario.always_500)
         [Scenario.stats_of "s3://bucket/prefix/job_id=A/x";
          Scenario.stats_of "s3://bucket/prefix/job_id=B/x"]
         Scenario.w0 = (Ok [("search_result.json", out)], w) →
       NoDup (out_confirmed_duplicates out)).
Proof.
  intros Hclaim.
  specialize (Hclaim (Output ["B"; "B"] [] []) Scenario.w0).
  assert (Hdup : NoDup ["B"; "B"]) by (apply Hclaim; vm_compute; reflexivity).
  apply NoDup_cons in Hdup as [Hnotin _].
  apply Hnotin, elem_of_cons. auto.
Qed.
End ConfirmedFacts.

(** ** Grouping the returned points *)

Module GroupFacts.
Import Search Evidence.

Section Dict.
Context {K A : Type} `{EqDecision K}.
Implicit Types (d : list (K * list A)).

Lemma append_at_keys (k k' : K) (v : A) d :
  has_key k' (PyDict.append_at k v d) ↔ k' = k ∨ has_key k' d.
Proof.
  unfold has_key. induction d as [|[k0 vs0] d IH]; simpl.
  - split.
    + intros (vs & [= -> ->]%list_elem_of_singleton). by left.
    + intros [-> | (vs & ?%elem_of_nil)]; [| done].
      exists [v]. by apply list_elem_of_singleton.
  - case_decide; subst.
    + split.
      * intros (vs & [[= -> ->] | Hin]%elem_of_cons); [by left |].
        right. exists vs. apply elem_of_cons. auto.
      * intros [-> | (vs & [[= -> ->] | Hin]%elem_of_cons)].
        -- eexists. apply elem_of_cons. left. reflexivity.
        -- eexists. apply elem_of_cons. left. reflexivity.
        -- exists vs. apply elem_of_cons. auto.
    + split.
      * intros (vs & [[= -> ->] | Hin]%elem_of_cons).
        -- right. exists vs0. apply elem_of_cons. auto.
        -- destruct (proj1 IH (ex_intro _ vs Hin)) as [-> | (vs' & Hin')];
             [by left |].
           right. exists vs'. apply elem_of_cons. auto.
      * intros [-> | (vs & [[= -> ->] | Hin]%elem_of_cons)].
        -- destruct (proj2 IH (or_introl eq_refl)) as (vs & Hin).
           exists vs. apply elem_of_cons. auto.
        -- exists vs0. apply elem_of_cons. auto.
        -- destruct (proj2 IH (or_intror (ex_intro _ vs Hin))) as (vs' & Hin').
           exists vs'. apply elem_of_cons. auto.
Qed.

Lemma append_at_nonempty (k : K) (v : A) d :
  nonempty_groups d → nonempty_groups (PyDict.append_at k v d).
Proof.
  unfold nonempty_groups. induction d as [|[k0 vs0] d IH]; simpl; intros Hd.
  - intros k' vs [= -> ->]%list_elem_of_singleton. done.
  - case_decide; subst; intros k' vs [[= -> ->] | Hin]%elem_of_cons.
    + by destruct vs0.
    + apply (Hd k' vs), elem_of_cons. auto.
    + apply (Hd k0 vs0), elem_of_cons. auto.
    + apply (IH (λ k1 vs1 H1, Hd k1 vs1 (proj2 (elem_of_cons _ _ _)
                                            (or_intror H1))) k' vs Hin).
Qed.

(** Appending makes a group of two or more exactly when there was one
    already or the key was present. *)
Lemma append_at_group (k : K) (v : A) d :
  nonempty_groups d →
  has_group (PyDict.append_at k v d) ↔ has_group d ∨ has_key k d.
Proof.
  unfold nonempty_groups, has_group, has_key.
  induction d as [|[k0 vs0] d IH]; simpl; intros Hd.
  - split.
    + intros (k' & vs & [= -> ->]%list_elem_of_singleton & Hlen).
      simpl in Hlen. lia.
    + intros [(k' & vs & ?%elem_of_nil & _) | (vs & ?%elem_of_nil)]; done.
  - assert (Hd' : ∀ k1 vs1, (k1, vs1) ∈ d → vs1 ≠ []).
    { intros k1 vs1 H1. apply (Hd k1 vs1), elem_of_cons. auto. }
    specialize (IH Hd').
    case_decide; subst.
    + split.
      * intros (k' & vs & [[= -> ->] | Hin]%elem_of_cons & Hlen).
        -- right. exists vs0. apply elem_of_cons. auto.
        -- left. exists k', vs. split; [apply elem_of_cons; auto | done].
      * intros [(k' & vs & [[= -> ->] | Hin]%elem_of_cons & Hlen)
               | (vs & [[= ->] | Hin]%elem_of_cons)].
        -- exists k, (vs0 ++ [v]). split; [apply elem_of_cons; auto |].
           rewrite length_app. simpl. lia.
        -- exists k', vs. split; [apply elem_of_cons; auto | done].
        -- exists k, (vs0 ++ [v]). split; [apply elem_of_cons; auto |].
           rewrite length_app. simpl.
           assert (vs0 ≠ []) by (apply (Hd k vs0), elem_of_cons; auto).
           destruct vs0; [done | simpl; lia].
        -- exists k, (vs0 ++ [v]). split; [apply elem_of_cons; auto |].
           rewrite length_app. simpl.
           assert (vs0 ≠ []) by (apply (Hd k vs0), elem_of_cons; auto).
           destruct vs0; [done | simpl; lia].
    + split.
      * intros (k' & vs & [[= -> ->] | Hin]%elem_of_cons & Hlen).
        -- left. exists k0, vs0. split; [apply elem_of_cons; auto | done].
        -- destruct (proj1 IH (ex_intro _ k' (ex_intro _ vs (conj Hin Hlen))))
             as [(k1 & vs1 & Hin1 & Hlen1) | (vs1 & Hin1)].
           ++ left. exists k1, vs1. split; [apply elem_of_cons; auto | done].
           ++ right. exists vs1. apply elem_of_cons. auto.
      * intros [(k' & vs & [[= -> ->] | Hin]%elem_of_cons & Hlen)
               | (vs & [[= -> ->] | Hin]%elem_of_cons)].
        -- exists k0, vs0. split; [apply elem_of_cons; auto | done].
        -- destruct (proj2 IH (or_introl
                       (ex_intro _ k' (ex_intro _ vs (conj Hin Hlen)))))
             as (k1 & vs1 & Hin1 & Hlen1).
           exists k1, vs1. split; [apply elem_of_cons; auto | done].
        -- done.
        -- destruct (proj2 IH (or_intror (ex_intro _ vs Hin)))
             as (k1 & vs1 & Hin1 & Hlen1).
           exists k1, vs1. split; [apply elem_of_cons; auto | done].
Qed.
End Dict.

Section Points.
Context {V : Type} `{EqDecision V}.
Implicit Types (e : env V) (w : world) (acc : lists)
  (pts : list (gmap string V)) (d : list (V * V * V * V * list V)).







End Points.


End GroupFacts.

(** ** Start-up *)

Module StartupFacts.
Import Startup.

(** X1. When the credentials test lets the script go on and [AWS_PROFILE]
    is not the empty string, the session parameters are: the profile
    alone when one is set; otherwise both access keys, which are then
    set, followed by the session token exactly when it is set and not
    empty.  So every parameter has a value, and the profile is never
    passed together with access keys. *)
Theorem session_params_complete (env : aws_environ) :
  credentials_missing env = false →
  AWS_PROFILE env ≠ Some EmptyString →
  Forall (λ kv, is_Some kv.2) (aws_session_params env) ∧
  (("profile_name", AWS_PROFILE env) ∈ aws_session_params env →
   aws_session_params env = [("profile_name", AWS_PROFILE env)]) ∧
  (∀ profile, AWS_PROFILE env = Some profile →
     aws_session_params env = [("profile_name", Some profile)]) ∧
  (AWS_PROFILE env = None →
   ∃ key secret,
     AWS_ACCESS_KEY_ID env = Some key ∧
     AWS_SECRET_ACCESS_KEY env = Some secret ∧
     aws_session_params env
     = [("aws_access_key_id", Some key);
        ("aws_secret_access_key", Some secret)]
       ++ match AWS_SESSION_TOKEN env with
          | Some token =>
              if decide (token = EmptyString) then []
              else [("aws_session_token", Some token)]
          | None => []
          end).
Proof.
  unfold credentials_missing, aws_session_params, truthy.
  destruct env as [key secret token profile]; simpl.
  intros Hcheck Hprofile.
  destruct profile as [p|]; simpl in *.
  - rewrite bool_decide_eq_false_2 by congruence. simpl.
    split; [repeat constructor; simpl; eauto |].
    split; [done |]. split; [by intros ? [= <-] | done].
  - destruct key as [k|], secret as [sk|]; simpl in Hcheck; try done.
    destruct token as [t|];
      [destruct (decide (t = EmptyString)) as [Ht | Ht];
       [rewrite (bool_decide_eq_true_2 _ Ht)
       | rewrite (bool_decide_eq_false_2 _ Ht)] |]; simpl.
    all: split; [repeat constructor; simpl; eauto |].
    all: split;
      [intros Hin; exfalso;
       rewrite ?elem_of_cons, elem_of_nil in Hin; intuition discriminate |].
    all: split; [done |].
    all: intros _; exists k, sk; split; [done |]; split; [done |]; done.
Qed.

Lemma session_params_complete_witness :
  Forall (λ kv, is_Some kv.2)
    (aws_session_params
       (AwsEnviron (Some "AKIA") (Some "secret") (Some "token") None)) ∧
  aws_session_params
    (AwsEnviron (Some "AKIA") (Some "secret") (Some "token") None)
  = [("aws_access_key_id", Some "AKIA");
     ("aws_secret_access_key", Some "secret");
     ("aws_session_token", Some "token")].
Proof.
  destruct (session_params_complete
              (AwsEnviron (Some "AKIA") (Some "secret") (Some "token") None))
    as (Hall & _ & _ & Hkeys); [reflexivity | discriminate |].
  split; [exact Hall |].
  destruct (Hkeys eq_refl) as (key & secret & [= <-] & [= <-] & Hparams).
  exact Hparams.
Defined.

(** X2. An empty [AWS_PROFILE] passes the credentials test whatever the
    keys are, and the session is then built from the keys as they are,
    set or not. *)
Theorem empty_profile_passes (env : aws_environ) :
  AWS_PROFILE env = Some EmptyString →
  credentials_missing env = false ∧
  ("aws_access_key_id", AWS_ACCESS_KEY_ID env) ∈ aws_session_params env ∧
  ("aws_secret_access_key", AWS_SECRET_ACCESS_KEY env)
    ∈ aws_session_params env.
Proof.
  unfold credentials_missing, aws_session_params.
  intros ->. simpl. split; [by rewrite andb_false_r |].
  split; [apply elem_of_cons; auto |].
  apply elem_of_cons. right. apply elem_of_cons. auto.
Qed.

Lemma empty_profile_passes_witness :
  credentials_missing (AwsEnviron None None None (Some EmptyString)) = false ∧
  ("aws_access_key_id", None)
    ∈ aws_session_params (AwsEnviron None None None (Some EmptyString)) ∧
  ("aws_secret_access_key", None)
    ∈ aws_session_params (AwsEnviron None None None (Some EmptyString)).
Proof.
  apply (empty_profile_passes (AwsEnviron None None None (Some EmptyString))).
  reflexivity.
Defined.
End StartupFacts.

(** ** The collection loop *)

Module DispatcherFacts.
Import Dispatcher.

Lemma div_succ (c n : nat) :
  (0 < c)%nat →
  (S n `div` c =
   if decide (S n `mod` c = 0) then S (n `div` c) else n `div` c)%nat ∧
  (S n `mod` c = 0 → S n = S (n `div` c) * c)%nat.
Proof.
  intros Hc.
  pose proof (Nat.div_mod_eq n c) as Hn.
  pose proof (Nat.div_mod_eq (S n) c) as Hsn.
  pose proof (Nat.mod_upper_bound n c) as Hr.
  pose proof (Nat.mod_upper_bound (S n) c) as Hsr.
  assert (Hq : (n `div` c ≤ S n `div` c ≤ S (n `div` c))%nat).
  { split.
    - apply Nat.Div0.div_le_mono. lia.
    - assert (S n `div` c < S (S (n `div` c)))%nat; [| lia].
      apply Nat.Div0.div_lt_upper_bound. nia. }
  specialize (Hr ltac:(lia)). specialize (Hsr ltac:(lia)).
  destruct (decide (S n `div` c = n `div` c)%nat) as [Heq | Hne].
  - rewrite Heq in *. case_decide as Hm; split; try done; lia.
  - assert (Heq : (S n `div` c = S (n `div` c))%nat) by lia.
    rewrite Heq in *. case_decide as Hm; split; try done; nia.
Qed.

Lemma multiples_upto (c n : nat) :
  (0 < c)%nat →
  filter (λ j, j `mod` c = 0)%nat (seq 1 n)
  = (λ k, k * c)%nat <$> seq 1 (n `div` c).
Proof.
  intros Hc. induction n as [|n IH].
  - by rewrite Nat.Div0.div_0_l.
  - rewrite seq_S, filter_app, IH. simpl (1 + n)%nat.
    destruct (div_succ c n Hc) as [Hdiv Hmul]. rewrite Hdiv.
    rewrite filter_cons, filter_nil.
    case_decide as Hm.
    + rewrite seq_S, fmap_app. f_equal. simpl. f_equal.
      specialize (Hmul Hm). lia.
    + by rewrite app_nil_r.
Qed.

Lemma collect_fold {R} (l : list R) (i : nat) (acc : list R * list nat) :
  foldl collect_step acc (zip (seq i (length l)) l)
  = (acc.1 ++ l,
     acc.2 ++ filter (λ j, j `mod` 250 = 0)%nat (seq i (length l))).
Proof.
  revert i acc. induction l as [|r l IH]; intros i acc.
  - simpl. rewrite !app_nil_r. by destruct acc.
  - cbn [length seq zip zip_with foldl]. rewrite IH.
    unfold collect_step. cbn [fst snd].
    rewrite filter_cons. rewrite <- app_assoc.
    case_decide; [by rewrite <- app_assoc | done].
Qed.

(** X3. The collection loop keeps every result, in the order of
    completion, and logs progress exactly at the multiples of 250. *)
Theorem collect_all {R} (completed : list R) :
  collect completed
  = (completed, (λ k, k * 250)%nat <$> seq 1 (length completed `div` 250)).
Proof.
  unfold collect. rewrite collect_fold. cbn [fst snd app].
  by rewrite multiples_upto by lia.
Qed.
End DispatcherFacts.

(** ** delete.py: selection, batches, retries *)

Module DeleteFacts.
Import DeleteRun.

Lemma delete_uuid_nonempty (key : string) :
  Delete.s3_url_to_uuid key ≠ EmptyString.
Proof. unfold Delete.s3_url_to_uuid. simpl. by case_decide. Qed.

Lemma delete_uuid_labelled (key : string) :
  Delete.s3_url_to_uuid key ≠ "NA" → PyStr.contains "job_id=" key = true.
Proof.
  intros Hna. destruct (PyStr.contains "job_id=" key) eqn:Hc; [done |].
  destruct Hna. unfold Delete.s3_url_to_uuid.
  by rewrite ExtractionFacts.partition_missing.
Qed.

Lemma select_fold (duplicated_jobs : list string)
    (pages : list (list string)) (acc : list string) :
  foldl (λ to_delete objects,
           to_delete ++ select_page duplicated_jobs objects) acc pages
  = acc ++ filter (λ key, Delete.s3_url_to_uuid key ∈ duplicated_jobs)
             (concat pages).
Proof.
  revert acc. induction pages as [|page pages IH]; intros acc; simpl.
  - by rewrite app_nil_r.
  - rewrite IH, filter_app, <- app_assoc. done.
Qed.

(** X4. The keys selected for deletion are the listed keys whose job id is
    among the duplicated jobs, in listing order and as often as listed;
    no other key is ever selected. *)
Theorem select_listed (duplicated_jobs : list string)
    (pages : list (list string)) :
  select duplicated_jobs pages
  = filter (λ key, Delete.s3_url_to_uuid key ∈ duplicated_jobs)
      (concat pages) ∧
  ∀ key, key ∈ select duplicated_jobs pages ↔
         key ∈ concat pages ∧ Delete.s3_url_to_uuid key ∈ duplicated_jobs.
Proof.
  assert (Heq : select duplicated_jobs pages
                = filter (λ key, Delete.s3_url_to_uuid key ∈ duplicated_jobs)
                    (concat pages))
    by (unfold select; by rewrite select_fold).
  split; [done |]. intros key. rewrite Heq, list_elem_of_filter. tauto.
Qed.

(** X5. Unless ["NA"] is itself listed as a duplicated job, every selected
    key carries a [job_id=] segment; and an empty job id among the
    duplicated jobs selects nothing. *)
Theorem select_labelled (duplicated_jobs : list string)
    (pages : list (list string)) :
  "NA" ∉ duplicated_jobs →
  Forall (λ key, PyStr.contains "job_id=" key = true)
    (select duplicated_jobs pages) ∧
  select (EmptyString :: duplicated_jobs) pages
  = select duplicated_jobs pages.
Proof.
  intros Hna. unfold select. rewrite !select_fold. simpl. split.
  - apply Forall_forall. intros key [Hin _]%list_elem_of_filter.
    apply delete_uuid_labelled. intros Heq. by rewrite Heq in Hin.
  - apply list_filter_iff. intros key. rewrite elem_of_cons.
    pose proof (delete_uuid_nonempty key) as Hne.
    split; [intros [Heq | Hin]; [done | done] | by right].
Qed.

Lemma select_labelled_witness :
  select [EmptyString; "j1"]
    [["p/job_id=j1/a.parquet"; "p/readme.txt"]; ["p/job_id=j2/b.parquet"]]
  = select ["j1"]
      [["p/job_id=j1/a.parquet"; "p/readme.txt"]; ["p/job_id=j2/b.parquet"]].
Proof.
  apply (select_labelled ["j1"]
           [["p/job_id=j1/a.parquet"; "p/readme.txt"];
            ["p/job_id=j2/b.parquet"]]).
  rewrite elem_of_cons, elem_of_nil. intros [H | []]. discriminate H.
Defined.

(** *** Batches *)

Lemma ceil_div_bounds (c n : nat) :
  (0 < c)%nat →
  (n ≤ (n + c - 1) `div` c * c)%nat ∧
  (∀ j, j < (n + c - 1) `div` c → j * c < n)%nat ∧
  (∀ j, S j < (n + c - 1) `div` c → j * c + c ≤ n)%nat.
Proof.
  intros Hc.
  pose proof (Nat.div_mod_eq (n + c - 1) c) as Hd.
  pose proof (Nat.mod_upper_bound (n + c - 1) c ltac:(lia)) as Hr.
  split; [nia |]. split; intros j Hj; nia.
Qed.

Lemma chunks_concat_upto {A} (c k : nat) (l : list A) :
  (length l ≤ k * c)%nat →
  concat ((λ i, take c (drop i l)) <$> ((λ j, j * c)%nat <$> seq 0 k)) = l.
Proof.
  revert l. induction k as [|k IH]; intros l Hlen.
  - simpl in *. symmetry. apply nil_length_inv. lia.
  - cbn [seq]. rewrite <- fmap_S_seq, !fmap_cons.
    cbn [concat]. rewrite Nat.mul_0_l, drop_0.
    rewrite <- !list_fmap_compose.
    rewrite (list_fmap_ext _
               ((λ i, take c (drop i (drop c l))) ∘ (λ j, j * c)%nat)
               (seq 0 k)).
    + rewrite list_fmap_compose, IH; [apply take_drop |].
      rewrite length_drop. lia.
    + intros _ j _. simpl. rewrite drop_drop. do 2 f_equal; lia.
Qed.

Lemma chunks_spec {A} (c : nat) (l : list A) (bs : list (list A)) :
  (0 < c)%nat →
  bs = (λ i, take c (drop i l)) <$>
       ((λ k, k * c)%nat <$> seq 0 ((length l + c - 1) `div` c)%nat) →
  concat bs = l ∧
  Forall (λ b, 1 ≤ length b ≤ c)%nat bs ∧
  length bs = ((length l + c - 1) `div` c)%nat ∧
  (∀ j b, bs !! j = Some b → S j < length bs → length b = c)%nat.
Proof.
  intros Hc ->.
  destruct (ceil_div_bounds c (length l) Hc) as (Hup & Hlt & Hfull).
  split; [by apply chunks_concat_upto |]. split; [| split].
  - rewrite <- list_fmap_compose. apply Forall_fmap, Forall_forall.
    intros j [_ Hj]%elem_of_seq. simpl.
    rewrite length_take, length_drop. specialize (Hlt j ltac:(lia)). lia.
  - by rewrite !length_fmap, length_seq.
  - intros j b. rewrite !length_fmap, length_seq.
    rewrite <- list_fmap_compose, list_lookup_fmap.
    intros Hb Hj. rewrite lookup_seq_lt in Hb by lia.
    simpl in Hb. injection Hb as <-.
    rewrite length_take, length_drop. specialize (Hfull j Hj). lia.
Qed.

(** X6. The batches are the list to delete cut in order: glued together
    they give the list back, each holds between 1 and 1000 keys, every
    batch but the last holds exactly 1000, and there are
    ceil(n / 1000) of them. *)
Theorem batches_partition {A} (to_delete : list A) :
  concat (batches to_delete) = to_delete ∧
  Forall (λ b, 1 ≤ length b ≤ 1000)%nat (batches to_delete) ∧
  length (batches to_delete) = ((length to_delete + 999) `div` 1000)%nat ∧
  (∀ j b, batches to_delete !! j = Some b →
          S j < length (batches to_delete) → length b = 1000)%nat.
Proof.
  replace (length to_delete + 999)%nat
    with (length to_delete + 1000 - 1)%nat by lia.
  apply (chunks_spec 1000 to_delete (batches to_delete)); [lia | done].
Qed.

(** *** Retries of a batch *)

Import DeleteSpec.

Lemma retry_errors_follows (fuel : nat)
    (s3 : nat → list string → delete_response) (n : nat)
    (resp : delete_response) (retries : Z)
    (calls : list (list string * delete_response)) (out : delete_outcome) :
  retry_errors fuel s3 n resp retries calls = Some out →
  0 < retries →
  ∃ extra, calls_of out = calls ++ extra ∧ follows s3 n resp extra ∧
           match out with
           | Completed _ => Errors (last_answer resp extra) = Some []
           | KeyError _ => Errors (last_answer resp extra) = None
           end.
Proof.
  intros Hrun Hretries. revert n resp calls Hrun.
  induction fuel as [|fuel IH]; intros n resp calls; simpl; [done |].
  destruct (Errors resp) as [errors|] eqn:He.
  - destruct (0 <? length errors)%nat eqn:Herr; simpl.
    + apply Nat.ltb_lt in Herr.
      rewrite (proj2 (Z.ltb_lt 0 retries) Hretries).
      intros (extra & Hcalls & Hfollows & Hlast)%IH.
      exists ((errors, s3 n errors) :: extra).
      split; [by rewrite Hcalls, <- app_assoc |]. split.
      * simpl. repeat split; [done | | done]. intros ->. simpl in Herr. lia.
      * unfold last_answer in *. rewrite fmap_cons, last_cons.
        by destruct (last (extra.*2)).
    + intros [= <-]. apply Nat.ltb_ge in Herr.
      exists []. simpl. rewrite app_nil_r. repeat split.
      unfold last_answer. simpl. rewrite He. f_equal.
      apply nil_length_inv. lia.
  - intros [= <-]. exists []. simpl. rewrite app_nil_r. by repeat split.
Qed.

(** X7. The calls made for a batch, when its handling ends.  The first
    call submits the whole batch.  A reply without a [Deleted] member
    raises [KeyError] at once; a reply with as many deletions as keys
    ends the batch with no further call.  Otherwise each further call
    resubmits exactly the keys the previous reply reported as errors, and
    there were some; the batch ends normally only on a reply whose
    [Errors] member is present and empty, and with a [KeyError] on a reply
    without an [Errors] member. *)
Theorem delete_batch_calls (fuel : nat)
    (s3 : nat → list string → delete_response) (n : nat)
    (batch : list string) (out : delete_outcome) :
  delete_batch fuel s3 n batch = Some out →
  ∃ extra,
    calls_of out = (batch, s3 n batch) :: extra ∧
    follows s3 (S n) (s3 n batch) extra ∧
    (Deleted (s3 n batch) = None → out = KeyError [(batch, s3 n batch)]) ∧
    (∀ deleted, Deleted (s3 n batch) = Some deleted →
       length deleted = length batch →
       out = Completed [(batch, s3 n batch)]) ∧
    (∀ deleted, Deleted (s3 n batch) = Some deleted →
       length deleted ≠ length batch →
       match out with
       | Completed _ => Errors (last_answer (s3 n batch) extra) = Some []
       | KeyError _ => Errors (last_answer (s3 n batch) extra) = None
       end).
Proof.
  unfold delete_batch.
  destruct (Deleted (s3 n batch)) as [deleted|] eqn:Hd.
  - case_decide as Hlen.
    + destruct (Errors (s3 n batch)) as [errors|] eqn:He.
      * intros (extra & Hcalls & Hfollows & Hlast)%retry_errors_follows;
          [| lia].
        exists extra. split; [done |]. split; [done |].
        split; [done |]. split.
        -- intros ? [= <-] ?. done.
        -- intros ? _ _. done.
      * intros [= <-]. exists []. simpl. split; [done |]. split; [done |].
        split; [done |]. split.
        -- intros ? [= <-] ?. done.
        -- intros ? _ _. by unfold last_answer.
    + intros [= <-]. exists []. simpl. split; [done |]. split; [done |].
      split; [done |]. split; [done |].
      intros ? [= <-] Hne. by destruct Hne.
  - intros [= <-]. exists []. simpl. split; [done |]. split; [done |].
    split; [done |]. split; [done | done].
Qed.

Lemma delete_batch_calls_witness :
  ∃ extra,
    calls_of (KeyError [(["a"; "b"], DeleteResponse (Some ["a"]) (Some ["b"]));
                        (["b"], DeleteResponse (Some ["b"]) None)])
    = (["a"; "b"], DeleteResponse (Some ["a"]) (Some ["b"])) :: extra ∧
    follows (λ n keys, if decide (n = 0%nat)
                       then DeleteResponse (Some ["a"]) (Some ["b"])
                       else DeleteResponse (Some keys) None)
      1 (DeleteResponse (Some ["a"]) (Some ["b"])) extra.
Proof.
  destruct (delete_batch_calls 2
              (λ n keys, if decide (n = 0%nat)
                         then DeleteResponse (Some ["a"]) (Some ["b"])
                         else DeleteResponse (Some keys) None)
              0 ["a"; "b"]
              (KeyError [(["a"; "b"], DeleteResponse (Some ["a"]) (Some ["b"]));
                         (["b"], DeleteResponse (Some ["b"]) None)]))
    as (extra & Hcalls & Hfollows & _); [reflexivity |].
  exists extra. split; [exact Hcalls | exact Hfollows].
Defined.

Lemma retry_errors_never (fuel : nat)
    (s3 : nat → list string → delete_response) (n : nat)
    (resp : delete_response) (retries : Z)
    (calls : list (list string * delete_response)) :
  (∀ m keys, ∃ errors, Errors (s3 m keys) = Some errors ∧ errors ≠ []) →
  (∃ errors, Errors resp = Some errors ∧ errors ≠ []) → 0 < retries →
  retry_errors fuel s3 n resp retries calls = None.
Proof.
  intros Hs3 Herr Hretries. revert n resp calls Herr.
  induction fuel as [|fuel IH]; intros n resp calls (errors & He & Hne);
    simpl; [done |].
  rewrite He, (proj2 (Z.ltb_lt 0 retries) Hretries).
  destruct errors as [|k ks]; [done |]. simpl.
  apply IH, Hs3.
Qed.

(** X8. The retry counter is never decreased: when the first reply has a
    [Deleted] member that does not count as many deletions as the batch
    has keys, and every reply has an [Errors] member that is not empty,
    the retries of the batch never end, whatever the fuel. *)
Theorem delete_batch_never_ends (fuel : nat)
    (s3 : nat → list string → delete_response) (n : nat)
    (batch deleted : list string) :
  (∀ m keys, ∃ errors, Errors (s3 m keys) = Some errors ∧ errors ≠ []) →
  Deleted (s3 n batch) = Some deleted →
  length deleted ≠ length batch →
  delete_batch fuel s3 n batch = None.
Proof.
  intros Hs3 Hd Hlen. unfold delete_batch. rewrite Hd.
  rewrite decide_True by done.
  destruct (Hs3 n batch) as (errors & He & Hne). rewrite He.
  apply retry_errors_never; [done | eauto | lia].
Qed.

Lemma delete_batch_never_ends_witness :
  delete_batch 50
    (λ m _, if decide (m = 0%nat)
            then DeleteResponse (Some ["a"]) (Some ["b"])
            else DeleteResponse None (Some ["b"]))
    0 ["a"; "b"] = None.
Proof.
  apply (delete_batch_never_ends 50
           (λ m _, if decide (m = 0%nat)
                   then DeleteResponse (Some ["a"]) (Some ["b"])
                   else DeleteResponse None (Some ["b"]))
           0 ["a"; "b"] ["a"]).
  - intros m keys. exists ["b"]. split; [by case_decide | discriminate].
  - reflexivity.
  - simpl. lia.
Defined.
End DeleteFacts.

(** ** check.py: the keys checked and the result file *)

Module CheckFacts.
Import CheckRun PyStrFacts.

Lemma endswith_spec (s suffix : string) :
  endswith s suffix = true ↔ ∃ pre, s = pre +:+ suffix.
Proof.
  induction s as [|a s IH]; simpl.
  - case_decide as Hs.
    + split; [| done]. intros _. by exists EmptyString.
    + split; [done |]. intros ([|b pre] & Hpre); rewrite ?app_nil_l in Hpre;
        [done | by rewrite app_cons in Hpre].
  - case_decide as Hs.
    + split; [| done]. intros _. by exists EmptyString.
    + rewrite IH. split.
      * intros (pre & ->). by exists (String a pre).
      * intros ([|b pre] & Hpre); rewrite ?app_nil_l in Hpre; [done |].
        rewrite app_cons in Hpre. injection Hpre as -> ->. by exists pre.
Qed.

Lemma app_inj_length (a b c d : string) :
  String.length a = String.length b → a +:+ c = b +:+ d → a = b.
Proof.
  revert b. induction a as [|x a IH]; intros [|y b]; simpl; try done.
  rewrite !app_cons. intros [= Hlen] [= -> Heq]. f_equal. by apply IH.
Qed.

Lemma app_inj_r (a b c : string) : a +:+ c = b +:+ c → a = b.
Proof.
  intros Heq. apply (app_inj_length a b c c); [| done].
  apply (f_equal String.length) in Heq. rewrite !app_length in Heq. lia.
Qed.

Lemma indexed_name_inj (filename : string) (i j : nat) :
  (filename +:+ "-" +:+ pretty i +:+ ".json")
  = (filename +:+ "-" +:+ pretty j +:+ ".json") → i = j.
Proof.
  intros Heq. do 2 apply String.app_inj in Heq.
  apply app_inj_r in Heq. by apply (inj pretty) in Heq.
Qed.

(** The index found is free and every index before it is taken. *)
Lemma free_index_first (fuel : nat) (files : gset string)
    (filename : string) (i j : nat) :
  free_index fuel files filename i = Some j →
  (i ≤ j)%nat ∧
  (filename +:+ "-" +:+ pretty j +:+ ".json" ∉ files) ∧
  ∀ k, (i ≤ k < j)%nat → filename +:+ "-" +:+ pretty k +:+ ".json" ∈ files.
Proof.
  revert i. induction fuel as [|fuel IH]; intros i; simpl; [done |].
  case_decide as Hin.
  - intros (Hle & Hfree & Htaken)%IH. split; [lia |]. split; [done |].
    intros k Hk. destruct (decide (k = i)) as [-> | Hne]; [done |].
    apply Htaken. lia.
  - intros [= <-]. split; [done |]. split; [done |]. intros k Hk. lia.
Qed.

(** A search that runs out of fuel has seen as many files as fuel. *)
Lemma free_index_none (fuel : nat) (files : gset string)
    (filename : string) (i : nat) :
  free_index fuel files filename i = None → (fuel ≤ size files)%nat.
Proof.
  intros Hnone.
  assert (Hall : ∀ k, (i ≤ k < i + fuel)%nat →
            filename +:+ "-" +:+ pretty k +:+ ".json" ∈ files).
  { revert i Hnone. induction fuel as [|fuel IH]; intros i; simpl;
      [intros _ k Hk; lia |].
    case_decide as Hin; [| done].
    intros Hnone k Hk. destruct (decide (k = i)) as [-> | Hne]; [done |].
    apply (IH (S i) Hnone). lia. }
  set (names := (λ k : nat, filename +:+ "-" +:+ pretty k +:+ ".json")
                  <$> seq i fuel).
  assert (Hnodup : NoDup names).
  { apply NoDup_fmap_2_strong; [| apply NoDup_seq].
    intros k1 k2 _ _. apply indexed_name_inj. }
  assert (Hlen : length names = fuel)
    by (unfold names; by rewrite length_fmap, length_seq).
  rewrite <- Hlen, <- (size_list_to_set (C := gset string) names Hnodup).
  apply subseteq_size. intros name.
  rewrite elem_of_list_to_set. unfold names.
  intros (k & -> & Hk%elem_of_seq)%list_elem_of_fmap. by apply Hall.
Qed.

(** X10. With more fuel than files, a run that found uningested urls
    writes exactly one file, under a name that did not exist: [result.json],
    or [result-i.json] for the first free [i] when [result.json] exists;
    a run that found none writes nothing. *)
Theorem write_result_fresh (fuel : nat) (files : gset string)
    (S3_BUCKET S3_PREFIX : string) (st : check_state) :
  (size files < fuel)%nat →
  (uningested_urls st = [] →
   write_result fuel files S3_BUCKET S3_PREFIX st = Some []) ∧
  (uningested_urls st ≠ [] →
   ∃ name,
     write_result fuel files S3_BUCKET S3_PREFIX st =
       Some [(name,
              CheckOutput ("s3://" +:+ S3_BUCKET +:+ "/" +:+ S3_PREFIX)
                (total_checked st) (length (uningested_urls st))
                (uningested_urls st))] ∧
     (name ∉ files) ∧
     (name = "result.json" ∨
      "result.json" ∈ files ∧
      ∃ i, name = "result" +:+ "-" +:+ pretty i +:+ ".json" ∧
           ∀ k, (k < i)%nat →
                "result" +:+ "-" +:+ pretty k +:+ ".json" ∈ files)).
Proof.
  intros Hfuel. unfold write_result. split.
  - intros ->. by rewrite decide_True.
  - intros Hne. rewrite decide_False
      by (intros Hlen; by apply nil_length_inv in Hlen).
    unfold result_name. case_decide as Hin.
    + destruct (free_index fuel files "result" 0) as [i|] eqn:Hi.
      * apply free_index_first in Hi as (_ & Hfree & Htaken). simpl.
        exists ("result" +:+ "-" +:+ pretty i +:+ ".json").
        assert (Hname : ("result" +:+ "-" +:+ pretty i) +:+ ".json"
                        = "result" +:+ "-" +:+ pretty i +:+ ".json")
          by by rewrite !app_assoc.
        rewrite Hname. split; [done |]. split; [done |]. right.
        split; [done |]. exists i. split; [done |].
        intros k Hk. apply Htaken. lia.
      * apply free_index_none in Hi. lia.
    + simpl. exists "result.json". split; [done |]. split; [done |]. by left.
Qed.

Lemma write_result_fresh_witness :
  ∃ name,
    write_result 5 {["result.json"; "result-0.json"]} "bucket" "prefix"
      (CheckState 3 ["s3://bucket/prefix/a.json"]) =
      Some [(name,
             CheckOutput "s3://bucket/prefix" 3 1
               ["s3://bucket/prefix/a.json"])] ∧
    name ∉ ({["result.json"; "result-0.json"]} : gset string).
Proof.
  destruct (write_result_fresh 5 {["result.json"; "result-0.json"]}
              "bucket" "prefix"
              (CheckState 3 ["s3://bucket/prefix/a.json"]))
    as [_ Hsome]; [vm_compute; lia |].
  destruct Hsome as (name & Hrun & Hfresh & _); [discriminate |].
  exists name. split; [exact Hrun | exact Hfresh].
Defined.

(** *** The keys checked *)

Section Pages.
Context {D : Type} (fuel : nat)
  (scan : string → nat → Fetcher.scan_result D) (S3_BUCKET : string).

Lemma get_url_key (url : string) (r : string * list D) :
  Check.get_es_docs_for_url fuel scan url = Some r → r.1 = url.
Proof.
  unfold Check.get_es_docs_for_url, Fetcher.get_es_docs.
  destruct (Fetcher.fetch_loop fuel (scan url) Fetcher.fetch_init); [| done].
  by intros [= <-].
Qed.

Lemma check_page_spec (st st' : check_state) (page : list string) :
  check_page fuel scan S3_BUCKET st page = Some st' →
  total_checked st'
  = (total_checked st
     + length (filter (λ key, is_checked key = true) page))%nat ∧
  (∀ url, url ∈ uningested_urls st' ↔
     url ∈ uningested_urls st ∨
     ∃ key, key ∈ page ∧ is_checked key = true ∧
            url = "s3://" +:+ S3_BUCKET +:+ "/" +:+ key ∧
            Check.get_es_docs_for_url fuel scan url = Some (url, [])) ∧
  (length (uningested_urls st')
   ≤ length (uningested_urls st)
     + length (filter (λ key, is_checked key = true) page))%nat.
Proof.
  unfold check_page.
  destruct (mapM _ _) as [results|] eqn:Hres; [| done]. simpl.
  intros [= <-]. simpl. apply mapM_Some in Hres.
  split; [done |]. split.
  - intros url. rewrite elem_of_app. apply or_iff_compat_l. split.
    + intros ([u recs] & -> & [Hlen Hr]%list_elem_of_filter)%list_elem_of_fmap.
      simpl in *. apply nil_length_inv in Hlen as ->.
      apply list_elem_of_lookup_1 in Hr as [i Hi].
      destruct (Forall2_lookup_r _ _ _ _ _ Hres Hi) as (key & Hkey & Hget).
      apply list_elem_of_lookup_2, list_elem_of_filter in Hkey as [Hc Hin].
      pose proof (get_url_key _ _ Hget) as Hu. simpl in Hu. subst u.
      exists key. by rewrite Hget.
    + intros (key & Hin & Hc & -> & Hget).
      assert (Hkey : key ∈ filter (λ key, is_checked key = true) page)
        by by apply list_elem_of_filter.
      apply list_elem_of_lookup_1 in Hkey as [i Hi].
      destruct (Forall2_lookup_l _ _ _ _ _ Hres Hi) as (r & Hr & Hget').
      rewrite Hget in Hget'. injection Hget' as <-.
      apply (list_elem_of_fmap_2' fst _ ("s3://" +:+ S3_BUCKET +:+ "/" +:+ key, []));
        [| done].
      apply list_elem_of_filter. split; [done |].
      by eapply list_elem_of_lookup_2.
  - rewrite length_app, length_fmap.
    pose proof (length_filter (λ r : string * list D, length r.2 = 0%nat)
                  results) as Hle.
    apply Forall2_length in Hres. lia.
Qed.

Lemma check_pages_spec (pages : list (list string)) (st st' : check_state) :
  check_pages fuel scan S3_BUCKET st pages = Some st' →
  total_checked st'
  = (total_checked st
     + length (filter (λ key, is_checked key = true) (concat pages)))%nat ∧
  (∀ url, url ∈ uningested_urls st' ↔
     url ∈ uningested_urls st ∨
     ∃ key, key ∈ concat pages ∧ is_checked key = true ∧
            url = "s3://" +:+ S3_BUCKET +:+ "/" +:+ key ∧
            Check.get_es_docs_for_url fuel scan url = Some (url, [])) ∧
  (length (uningested_urls st')
   ≤ length (uningested_urls st)
     + length (filter (λ key, is_checked key = true) (concat pages)))%nat.
Proof.
  revert st. induction pages as [|page pages IH]; intros st; simpl.
  - intros [= <-]. split; [lia |]. split; [| lia].
    intros url. split; [by left |].
    by intros [? | (key & ?%elem_of_nil & _)].
  - destruct (check_page fuel scan S3_BUCKET st page) as [st1|] eqn:Hpage;
      [| done]. simpl.
    apply check_page_spec in Hpage as (Ht1 & Hu1 & Hl1).
    intros (Ht & Hu & Hl)%IH.
    rewrite filter_app, length_app.
    split; [lia |]. split; [| lia].
    intros url. rewrite Hu, Hu1. setoid_rewrite elem_of_app. split.
    + intros [[? | (key & ? & ?)] | (key & ? & ?)]; eauto 8.
    + intros [? | (key & [? | ?] & ?)]; eauto 8.
Qed.

Lemma check_pages_total (pages : list (list string)) (st : check_state) :
  (4 ≤ fuel)%nat → is_Some (check_pages fuel scan S3_BUCKET st pages).
Proof.
  intros Hfuel. revert st.
  induction pages as [|page pages IH]; intros st; simpl; [eauto |].
  unfold check_page.
  destruct (mapM _ _) as [results|] eqn:Hres; simpl; [apply IH |].
  apply mapM_None_1, Exists_exists in Hres as (key & _ & Hnone).
  unfold Check.get_es_docs_for_url, Fetcher.get_es_docs in Hnone.
  destruct (FetcherFacts.fetch_loop_total
              (scan ("s3://" +:+ S3_BUCKET +:+ "/" +:+ key)) fuel
              Fetcher.fetch_init) as [st0 Hst0]; [simpl; lia |].
  by rewrite Hst0 in Hnone.
Qed.
End Pages.

(** X9. With fuel for three scans per key the check of all pages ends.
    It counts exactly the listed keys ending in [.json] or [.json.gz], and
    reports a url as uningested exactly when it is the url of such a key
    and the fetch for it returned no record; there are never more
    uningested urls than keys checked. *)
Theorem check_pages_report {D} (fuel : nat)
    (scan : string → nat → Fetcher.scan_result D) (S3_BUCKET : string)
    (pages : list (list string)) :
  (4 ≤ fuel)%nat →
  ∃ st,
    check_pages fuel scan S3_BUCKET (CheckState 0 []) pages = Some st ∧
    total_checked st
    = length (filter (λ key, is_checked key = true) (concat pages)) ∧
    (∀ key, is_checked key = true ↔
            ∃ pre, key = pre +:+ ".json" ∨ key = pre +:+ ".json.gz") ∧
    (∀ url, url ∈ uningested_urls st ↔
       ∃ key, key ∈ concat pages ∧ is_checked key = true ∧
              url = "s3://" +:+ S3_BUCKET +:+ "/" +:+ key ∧
              Check.get_es_docs_for_url fuel scan url = Some (url, [])) ∧
    (length (uningested_urls st) ≤ total_checked st)%nat.
Proof.
  intros Hfuel.
  destruct (check_pages_total fuel scan S3_BUCKET pages (CheckState 0 [])
              Hfuel) as [st Hst].
  exists st. split; [done |].
  apply check_pages_spec in Hst as (Ht & Hu & Hl). simpl in *.
  split; [done |]. split; [| split; [| lia]].
  - intros key. unfold is_checked. rewrite orb_true_iff, !endswith_spec.
    split; [intros [[pre ->] | [pre ->]]; eauto
           | intros (pre & [-> | ->]); eauto].
  - intros url. rewrite Hu. split; [| by right].
    by intros [?%elem_of_nil | ?].
Qed.

Lemma check_pages_report_witness :
  ∃ st,
    check_pages 4 (λ url _, if decide (url = "s3://b/p/a.json")
                            then Fetcher.ScanDone []
                            else Fetcher.ScanDone ["doc"])
      "b" (CheckState 0 []) [["p/a.json"; "p/b.json.gz"; "p/c.txt"]]
    = Some st ∧
    (length (uningested_urls st) ≤ total_checked st)%nat.
Proof.
  destruct (check_pages_report 4
              (λ url _, if decide (url = "s3://b/p/a.json")
                        then Fetcher.ScanDone []
                        else Fetcher.ScanDone ["doc"])
              "b" [["p/a.json"; "p/b.json.gz"; "p/c.txt"]])
    as (st & Hrun & _ & _ & _ & Hle); [lia |].
  exists st. split; [exact Hrun | exact Hle].
Defined.
End CheckFacts.

(** ** More on the enumeration *)

Module EnumMore.
Import Search.

Section Facts.
Context {V : Type} `{EqDecision V}.
Implicit Types (e : env V) (st : enum_state V) (src : stats_source V)
  (scroll : list (stats_source V)).

Lemma enumerate_snoc e scroll src :
  enumerate e (scroll ++ [src]) = enum_step e (enumerate e scroll) src.
Proof. unfold enumerate. by rewrite foldl_app. Qed.

(** X11. The counters after the scan: every document is counted once, as
    added or as skipped; the skipped ones are those outside the prefix;
    and a random number was drawn for every added document that did not
    bring a new job id. *)
Theorem enumerate_counters e scroll :
  docs (enumerate e scroll) = Z.of_nat (length scroll) ∧
  docs (enumerate e scroll)
  = added (enumerate e scroll) + skipped (enumerate e scroll) ∧
  skipped (enumerate e scroll)
  = Z.of_nat (length (filter
       (λ src, startswith (s3_url src) (OPENSEARCH_PARQUET_PREFIX e) = false)
       scroll)) ∧
  added (enumerate e scroll)
  = Z.of_nat (size (ingest_uuids (enumerate e scroll))
              + draws (enumerate e scroll)).
Proof.
  induction scroll as [|src scroll IH] using rev_ind; [done |].
  destruct IH as (Hdocs & Hsum & Hskip & Hadd).
  rewrite enumerate_snoc, filter_app, !length_app.
  pose proof (EnumFacts.enumerate_dom e scroll) as Hdom.
  unfold enum_step. rewrite filter_cons, filter_nil.
  destruct (startswith _ _) eqn:Hpre; simpl.
  - destruct (uuid_to_stats (enumerate e scroll) !! _) as [old|] eqn:Hold;
      simpl.
    + assert (Hin : s3_url_to_uuid (s3_url src)
                    ∈ ingest_uuids (enumerate e scroll))
        by (rewrite <- Hdom; apply elem_of_dom; eauto).
      rewrite (subseteq_union_1_L {[s3_url_to_uuid (s3_url src)]})
        by by apply singleton_subseteq_l.
      repeat split; lia.
    + assert (Hnotin : s3_url_to_uuid (s3_url src)
                       ∉ ingest_uuids (enumerate e scroll))
        by (rewrite <- Hdom; by apply not_elem_of_dom).
      rewrite size_union by (apply disjoint_singleton_l; done).
      rewrite size_singleton. repeat split; lia.
  - repeat split; lia.
Qed.

Lemma retained_from_scroll e scroll (uuid : string) src :
  uuid_to_stats (enumerate e scroll) !! uuid = Some src →
  src ∈ scroll ∧
  startswith (s3_url src) (OPENSEARCH_PARQUET_PREFIX e) = true ∧
  s3_url_to_uuid (s3_url src) = uuid.
Proof.
  induction scroll as [|x scroll IH] using rev_ind; [done |].
  rewrite enumerate_snoc. unfold enum_step.
  assert (Hold : uuid_to_stats (enumerate e scroll) !! uuid = Some src →
            src ∈ scroll ++ [x] ∧
            startswith (s3_url src) (OPENSEARCH_PARQUET_PREFIX e) = true ∧
            s3_url_to_uuid (s3_url src) = uuid).
  { intros (Hin & Hp & Hu)%IH. rewrite elem_of_app. auto. }
  assert (Hnew : startswith (s3_url x) (OPENSEARCH_PARQUET_PREFIX e) = true →
            <[s3_url_to_uuid (s3_url x) := x]>
              (uuid_to_stats (enumerate e scroll)) !! uuid = Some src →
            src ∈ scroll ++ [x] ∧
            startswith (s3_url src) (OPENSEARCH_PARQUET_PREFIX e) = true ∧
            s3_url_to_uuid (s3_url src) = uuid).
  { intros Hpre. rewrite lookup_insert. case_decide as Hk; [| done].
    intros [= <-]. rewrite elem_of_app, list_elem_of_singleton. auto. }
  destruct (startswith (s3_url x) _) eqn:Hpre; simpl; [| exact Hold].
  specialize (Hnew eq_refl).
  destruct (uuid_to_stats (enumerate e scroll) !! s3_url_to_uuid (s3_url x))
    as [old|]; simpl; [destruct (Qlt_le_dec _ _) |]; assumption.
Qed.

(** X12. The stats record retained for a job id is one of the scanned
    documents, lies under the prefix and yields that job id. *)
Theorem retained_provenance e scroll (uuid : string) src :
  uuid_to_stats (enumerate e scroll) !! uuid = Some src →
  src ∈ scroll ∧
  startswith (s3_url src) (OPENSEARCH_PARQUET_PREFIX e) = true ∧
  s3_url_to_uuid (s3_url src) = uuid.
Proof. apply retained_from_scroll. Qed.

Lemma enum_step_keeps e st src (uuid : string) (kept : stats_source V) :
  (∀ n, (1 # 4 <= random e n)%Q) →
  uuid_to_stats st !! uuid = Some kept →
  uuid_to_stats (enum_step e st src) !! uuid = Some kept.
Proof.
  intros Hrand Hkept. unfold enum_step.
  destruct (startswith _ _); simpl; [| done].
  destruct (uuid_to_stats st !! s3_url_to_uuid (s3_url src)) as [old|] eqn:Ho;
    simpl.
  - destruct (Qlt_le_dec _ _) as [Hlt | _]; [| done].
    exfalso. apply (Qlt_not_le _ _ Hlt), Hrand.
  - rewrite lookup_insert_ne; [done |]. intros Heq. congruence.
Qed.

(** X13. When no random number falls below 0.25, the record retained for
    a job id is the first one scanned for it. *)
Theorem first_seen_kept e (l1 l2 : list (stats_source V)) src :
  (∀ n, (1 # 4 <= random e n)%Q) →
  startswith (s3_url src) (OPENSEARCH_PARQUET_PREFIX e) = true →
  (∀ x, x ∈ l1 →
        startswith (s3_url x) (OPENSEARCH_PARQUET_PREFIX e) = true →
        s3_url_to_uuid (s3_url x) ≠ s3_url_to_uuid (s3_url src)) →
  uuid_to_stats (enumerate e (l1 ++ src :: l2))
    !! s3_url_to_uuid (s3_url src) = Some src.
Proof.
  intros Hrand Hpre Hfirst.
  induction l2 as [|y l2 IH] using rev_ind.
  - rewrite enumerate_snoc.
    apply EnumFacts.enum_step_first; [done |].
    destruct (uuid_to_stats (enumerate e l1) !! _) as [old|] eqn:Hold;
      [| done].
    apply retained_from_scroll in Hold as (Hin & Hp & Hu).
    by destruct (Hfirst old Hin Hp).
  - rewrite app_comm_cons, app_assoc, enumerate_snoc.
    by apply enum_step_keeps.
Qed.
End Facts.

Lemma first_seen_kept_witness :
  uuid_to_stats
    (enumerate (Scenario.env_of Scenario.no_files Scenario.always_500)
       ([] ++ Scenario.stats_of "s3://bucket/prefix/job_id=D/x"
           :: [Scenario.stats_of "s3://bucket/prefix/job_id=D/y"]))
    !! s3_url_to_uuid "s3://bucket/prefix/job_id=D/x"
  = Some (Scenario.stats_of "s3://bucket/prefix/job_id=D/x").
Proof.
  apply (first_seen_kept
           (Scenario.env_of Scenario.no_files Scenario.always_500) []
           [Scenario.stats_of "s3://bucket/prefix/job_id=D/y"]
           (Scenario.stats_of "s3://bucket/prefix/job_id=D/x")).
  - intros n. simpl. discriminate.
  - reflexivity.
  - intros x Hx. by apply elem_of_nil in Hx.
Defined.

Lemma retained_provenance_witness :
  Scenario.stats_of "s3://bucket/prefix/job_id=D/x"
    ∈ [Scenario.stats_of "s3://bucket/prefix/job_id=D/x"].
Proof.
  apply (retained_provenance
           (Scenario.env_of Scenario.no_files Scenario.always_500)
           [Scenario.stats_of "s3://bucket/prefix/job_id=D/x"] "D"
           (Scenario.stats_of "s3://bucket/prefix/job_id=D/x")).
  vm_compute. reflexivity.
Defined.
End EnumMore.

(** ** More on the fetcher *)

Module FetcherMore.
Import Fetcher.

(** X14. A fetch whose first [k] scans raise and whose next scan
    completes, [k] below 3, returns the documents of that scan alone,
    after [k + 1] scans and sleeps of the first [k] of 1.5, 3, 6; this
    holds for both copies of the function. *)
Theorem fetch_recovers {D} (scan : string → nat → scan_result D)
    (key : string) (fuel k : nat) (docs : list D) :
  (k < 3)%nat →
  (∀ i, (i < k)%nat → ∃ partial, scan key i = ScanRaised partial) →
  scan key k = ScanDone docs →
  (4 ≤ fuel)%nat →
  Search.get_es_docs_for_id fuel scan key = Some (key, docs) ∧
  Check.get_es_docs_for_url fuel scan key = Some (key, docs) ∧
  ∃ st, fetch_loop fuel (scan key) fetch_init = Some st ∧
        attempts st = S k ∧
        Forall2 Qeq (slept st) (take k [3 # 2; 3 # 1; 6 # 1]%Q).
Proof.
  intros Hk Hfail Hdone Hfuel.
  unfold Search.get_es_docs_for_id, Check.get_es_docs_for_url, get_es_docs.
  rewrite (FetcherFacts.fetch_loop_cases _ _ Hfuel).
  destruct k as [|[|[|k]]]; [| | | lia].
  - rewrite Hdone. simpl. split; [done |]. split; [done |].
    eexists. split; [reflexivity |]. split; [reflexivity |]. constructor.
  - destruct (Hfail 0%nat ltac:(lia)) as [p0 ->]. rewrite Hdone. simpl.
    split; [done |]. split; [done |].
    eexists. split; [reflexivity |]. split; [reflexivity |].
    simpl. by repeat constructor.
  - destruct (Hfail 0%nat ltac:(lia)) as [p0 ->].
    destruct (Hfail 1%nat ltac:(lia)) as [p1 ->]. rewrite Hdone. simpl.
    split; [done |]. split; [done |].
    eexists. split; [reflexivity |]. split; [reflexivity |].
    simpl. by repeat constructor.
Qed.

Lemma fetch_recovers_witness :
  Search.get_es_docs_for_id 4
    (λ _ n, if decide (n = 1%nat) then ScanDone ["doc"] else ScanRaised ["x"])
    "job-1" = Some ("job-1", ["doc"]).
Proof.
  apply (fetch_recovers
           (λ _ n, if decide (n = 1%nat) then ScanDone ["doc"]
                   else ScanRaised ["x"])
           "job-1" 4 1 ["doc"]); [lia | | reflexivity | lia].
  intros i Hi. exists ["x"]. by replace i with 0%nat by lia.
Defined.
End FetcherMore.

(** ** More on the mapping loop *)

Module MapperFacts.
Import Search Evidence.

Section Dict.
Context {K A : Type} `{EqDecision K}.
Implicit Types (d : list (K * list A)).

Lemma append_at_fst_old (k : K) (v : A) d :
  k ∈ d.*1 → (PyDict.append_at k v d).*1 = d.*1.
Proof.
  induction d as [|[k0 vs0] d IH]; csimpl; [by intros ?%elem_of_nil |].
  intros Hin. case_decide as Hk; subst; csimpl; [done |].
  apply elem_of_cons in Hin as [-> | Hin]; [done |]. by rewrite IH.
Qed.

Lemma append_at_fst_new (k : K) (v : A) d :
  k ∉ d.*1 → (PyDict.append_at k v d).*1 = d.*1 ++ [k].
Proof.
  induction d as [|[k0 vs0] d IH]; csimpl; [done |].
  intros Hin. case_decide as Hk; subst; csimpl.
  - destruct Hin. apply elem_of_cons. auto.
  - rewrite IH; [done |]. intros Hd. apply Hin, elem_of_cons. auto.
Qed.

Lemma append_at_nodup (k : K) (v : A) d :
  NoDup (d.*1) → NoDup ((PyDict.append_at k v d).*1).
Proof.
  intros Hd. destruct (decide (k ∈ d.*1)) as [Hin | Hin].
  - by rewrite append_at_fst_old.
  - rewrite append_at_fst_new by done.
    apply NoDup_app. split; [done |]. split; [| apply NoDup_singleton].
    intros x Hx ->%list_elem_of_singleton. done.
Qed.

Lemma append_at_total (k : K) (v : A) d :
  sum_list (length <$> (PyDict.append_at k v d).*2)
  = S (sum_list (length <$> d.*2)).
Proof.
  induction d as [|[k0 vs0] d IH]; simpl; [done |].
  case_decide; csimpl; [rewrite length_app; simpl; lia | rewrite IH; lia].
Qed.

Lemma append_at_has (k : K) (v : A) d :
  ∃ vs, (k, vs) ∈ PyDict.append_at k v d ∧ v ∈ vs.
Proof.
  induction d as [|[k0 vs0] d (vs & Hin & Hv)]; simpl.
  - exists [v]. split; by apply list_elem_of_singleton.
  - case_decide; subst.
    + exists (vs0 ++ [v]). split; [apply elem_of_cons; auto |].
      apply elem_of_app. right. by apply list_elem_of_singleton.
    + exists vs. split; [apply elem_of_cons; auto | done].
Qed.

Lemma append_at_keeps (k k' : K) (v x : A) d (vs : list A) :
  (k', vs) ∈ d → x ∈ vs →
  ∃ vs', (k', vs') ∈ PyDict.append_at k v d ∧ x ∈ vs'.
Proof.
  induction d as [|[k0 vs0] d IH]; simpl; [by intros ?%elem_of_nil |].
  intros [[= -> ->] | Hin]%elem_of_cons Hx.
  - case_decide; subst.
    + exists (vs0 ++ [v]). split; [apply elem_of_cons; auto |].
      apply elem_of_app. auto.
    + exists vs0. split; [apply elem_of_cons; auto | done].
  - destruct (IH Hin Hx) as (vs' & Hin' & Hx').
    case_decide; subst.
    + exists vs. split; [apply elem_of_cons; auto | done].
    + exists vs'. split; [apply elem_of_cons; auto | done].
Qed.
End Dict.

Implicit Types (m : list (string * list (string * Z)))
  (docs : list file_source) (recs : list (string * list file_source)).

Lemma map_docs_shape (id : string) docs m :
  NoDup (m.*1) → nonempty_groups m →
  NoDup ((foldl (map_doc id) m docs).*1) ∧
  nonempty_groups (foldl (map_doc id) m docs) ∧
  sum_list (length <$> (foldl (map_doc id) m docs).*2)
  = (sum_list (length <$> m.*2) + length docs)%nat.
Proof.
  revert m. induction docs as [|doc docs IH]; intros m Hnd Hne; simpl.
  - split; [done |]. split; [done | lia].
  - destruct (IH (map_doc id m doc)) as (H1 & H2 & H3).
    + by apply append_at_nodup.
    + by apply GroupFacts.append_at_nonempty.
    + split; [done |]. split; [done |].
      rewrite H3. unfold map_doc. rewrite append_at_total. lia.
Qed.

Lemma map_records_shape recs
    (acc : list string * list (string * list (string * Z))) :
  NoDup (acc.2.*1) → nonempty_groups acc.2 →
  NoDup ((foldl map_record acc recs).2.*1) ∧
  nonempty_groups (foldl map_record acc recs).2 ∧
  sum_list (length <$> (foldl map_record acc recs).2.*2)
  = (sum_list (length <$> acc.2.*2) + sum_list (length <$> recs.*2))%nat ∧
  (foldl map_record acc recs).1
  = acc.1 ++ (filter (λ r, length r.2 = 0%nat) recs).*1.
Proof.
  revert acc. induction recs as [|[id docs] recs IH]; intros acc Hnd Hne.
  - simpl. split; [done |]. split; [done |]. split; [lia |].
    by rewrite app_nil_r.
  - cbn [foldl]. unfold map_record at 2 4 6 8. cbn [fst snd].
    rewrite filter_cons. cbn [snd].
    case_decide as Hlen.
    + destruct (IH (acc.1 ++ [id], acc.2) Hnd Hne) as (H1 & H2 & H3 & H4).
      split; [done |]. split; [done |]. cbn [fst snd] in *.
      split; [rewrite H3; csimpl; lia |].
      rewrite H4. csimpl. by rewrite <- app_assoc.
    + destruct (map_docs_shape id docs acc.2 Hnd Hne) as (G1 & G2 & G3).
      destruct (IH (acc.1, foldl (map_doc id) acc.2 docs) G1 G2)
        as (H1 & H2 & H3 & H4).
      split; [done |]. split; [done |]. cbn [fst snd] in *.
      split; [rewrite H3, G3; csimpl; lia | done].
Qed.

(** X15. The source-file index after the mapping loop: no source file has
    two entries, no entry is empty, the entries hold as many pairs as the
    fetches returned file records, and the unconfirmed jobs are the jobs
    with an empty result, in the order of the results. *)
Theorem src_id_map_shape recs :
  NoDup ((map_records recs).2.*1) ∧
  (∀ src entry, (src, entry) ∈ (map_records recs).2 → entry ≠ []) ∧
  sum_list (length <$> (map_records recs).2.*2)
  = sum_list (length <$> recs.*2) ∧
  (map_records recs).1 = (filter (λ r, length r.2 = 0%nat) recs).*1.
Proof.
  destruct (map_records_shape recs ([], [])) as (H1 & H2 & H3 & H4).
  - constructor.
  - by intros k vs ?%elem_of_nil.
  - by repeat split.
Qed.

Lemma map_docs_keeps (id : string) docs m (src : string)
    (entry : list (string * Z)) (p : string * Z) :
  (src, entry) ∈ m → p ∈ entry →
  ∃ entry', (src, entry') ∈ foldl (map_doc id) m docs ∧ p ∈ entry'.
Proof.
  revert m entry. induction docs as [|doc docs IH]; intros m entry; simpl;
    [eauto |].
  intros Hin Hp.
  destruct (append_at_keeps (file_s3_url doc) src
              (id, job_end_time doc) p m entry Hin Hp) as (e1 & Hin1 & Hp1).
  by apply (IH _ e1).
Qed.

Lemma map_docs_has (id : string) docs m (doc : file_source) :
  doc ∈ docs →
  ∃ entry, (file_s3_url doc, entry) ∈ foldl (map_doc id) m docs ∧
           (id, job_end_time doc) ∈ entry.
Proof.
  revert m. induction docs as [|d docs IH]; intros m; simpl;
    [by intros ?%elem_of_nil |].
  intros [-> | Hin]%elem_of_cons; [| by apply IH].
  destruct (append_at_has (file_s3_url d) (id, job_end_time d) m)
    as (e1 & Hin1 & Hp1).
  by apply (map_docs_keeps id docs _ _ e1).
Qed.

Lemma map_records_keeps recs
    (acc : list string * list (string * list (string * Z)))
    (src : string) (entry : list (string * Z)) (p : string * Z) :
  (src, entry) ∈ acc.2 → p ∈ entry →
  ∃ entry', (src, entry') ∈ (foldl map_record acc recs).2 ∧ p ∈ entry'.
Proof.
  revert acc entry. induction recs as [|[id docs] recs IH];
    intros acc entry; simpl; [eauto |].
  intros Hin Hp. unfold map_record at 2. simpl.
  case_decide; [by apply (IH _ entry) |].
  destruct (map_docs_keeps id docs acc.2 src entry p Hin Hp)
    as (e1 & Hin1 & Hp1).
  by apply (IH _ e1).
Qed.

(** X16. No file record is lost: every record of every result is found in
    the index under its source file, as the pair of the job the result is
    for and the record's end time. *)
Theorem src_id_map_complete recs (id : string) docs (doc : file_source) :
  (id, docs) ∈ recs → doc ∈ docs →
  ∃ entry, (file_s3_url doc, entry) ∈ (map_records recs).2 ∧
           (id, job_end_time doc) ∈ entry.
Proof.
  unfold map_records. generalize ([] : list string,
    [] : list (string * list (string * Z))).
  induction recs as [|[id0 docs0] recs IH]; intros acc;
    [by intros ?%elem_of_nil |].
  intros [[= -> ->] | Hin]%elem_of_cons Hdoc; simpl; [| by apply IH].
  unfold map_record at 2. simpl.
  rewrite decide_False
    by (intros Hlen; apply nil_length_inv in Hlen; subst;
        by apply elem_of_nil in Hdoc).
  destruct (map_docs_has id0 docs0 acc.2 doc Hdoc) as (e1 & Hin1 & Hp1).
  by apply (map_records_keeps recs _ _ e1).
Qed.

Lemma src_id_map_complete_witness :
  ∃ entry,
    ("f1", entry)
      ∈ (map_records [("A", [FileSource "f1" 5]); ("B", [FileSource "f1" 3])]).2
    ∧ ("B", 3) ∈ entry.
Proof.
  apply (src_id_map_complete
           [("A", [FileSource "f1" 5]); ("B", [FileSource "f1" 3])]
           "B" [FileSource "f1" 3] (FileSource "f1" 3)).
  - apply elem_of_cons. right. apply elem_of_cons. by left.
  - apply elem_of_cons. by left.
Defined.
End MapperFacts.

(** ** Runs in which no source file is shared *)

Module UniqueFacts.
Import Search Evidence.

Implicit Types (m : list (string * list (string * Z)))
  (docs : list file_source) (recs : list (string * list file_source)).

Lemma map_docs_unique (id : string) docs m :
  nonempty_groups m → ¬ has_group m →
  (∀ doc, doc ∈ docs → ¬ has_key (file_s3_url doc) m) →
  NoDup (file_s3_url <$> docs) →
  nonempty_groups (foldl (map_doc id) m docs) ∧
  ¬ has_group (foldl (map_doc id) m docs) ∧
  ∀ k, has_key k (foldl (map_doc id) m docs) →
       has_key k m ∨ k ∈ file_s3_url <$> docs.
Proof.
  revert m. induction docs as [|doc docs IH]; intros m Hne Hng Hfresh Hnd;
    simpl.
  - split; [done |]. split; [done |]. by left.
  - csimpl in Hnd. apply NoDup_cons in Hnd as [Hdoc Hnd].
    destruct (IH (map_doc id m doc)) as (H1 & H2 & H3).
    + by apply GroupFacts.append_at_nonempty.
    + unfold map_doc. rewrite GroupFacts.append_at_group by done.
      intros [? | Hk]; [done |].
      apply (Hfresh doc); [apply elem_of_cons; auto | done].
    + intros d Hd. unfold map_doc. rewrite GroupFacts.append_at_keys.
      intros [Heq | Hk].
      * apply Hdoc. rewrite <- Heq. by apply list_elem_of_fmap_2.
      * apply (Hfresh d); [apply elem_of_cons; auto | done].
    + done.
    + split; [done |]. split; [done |].
      intros k [Hk | Hk]%H3.
      * unfold map_doc in Hk. apply GroupFacts.append_at_keys in Hk
          as [-> | Hk]; [right; csimpl; apply elem_of_cons; auto | by left].
      * right. csimpl. apply elem_of_cons. auto.
Qed.

Lemma map_records_unique recs
    (acc : list string * list (string * list (string * Z))) :
  nonempty_groups acc.2 → ¬ has_group acc.2 →
  (∀ k, k ∈ file_s3_url <$> concat (recs.*2) → ¬ has_key k acc.2) →
  NoDup (file_s3_url <$> concat (recs.*2)) →
  ¬ has_group (foldl map_record acc recs).2.
Proof.
  revert acc. induction recs as [|[id docs] recs IH];
    intros acc Hne Hng Hfresh Hnd; [done |].
  csimpl in Hfresh. csimpl in Hnd. rewrite fmap_app in Hfresh, Hnd.
  apply NoDup_app in Hnd as (Hnd1 & Hdisj & Hnd2).
  cbn [foldl]. unfold map_record at 2. cbn [fst snd].
  case_decide as Hlen.
  - apply IH; cbn [snd]; [done | done | | done].
    intros k Hk. apply Hfresh, elem_of_app. auto.
  - destruct (map_docs_unique id docs acc.2 Hne Hng) as (H1 & H2 & H3);
      [| done |].
    { intros doc Hdoc. apply Hfresh, elem_of_app. left.
      by apply list_elem_of_fmap_2. }
    apply IH; cbn [snd]; [done | done | | done].
    intros k Hk [Hold | Hnew]%H3.
    + apply (Hfresh k); [apply elem_of_app; auto | done].
    + by apply (Hdisj k).
Qed.

Lemma no_group_no_shared m : ¬ has_group m → shared_entries m = [].
Proof.
  intros Hng. unfold shared_entries.
  destruct (filter _ _) as [|entry rest] eqn:Hf; [done |].
  assert (Hin : entry ∈ filter (λ duplicates, (1 < length duplicates)%nat)
                  (m.*2)) by (rewrite Hf; apply elem_of_cons; auto).
  apply list_elem_of_filter in Hin as [Hlen Hin].
  apply list_elem_of_fmap in Hin as ([src entry'] & -> & Hin).
  destruct Hng. exists src, entry'. split; [done | simpl in Hlen; lia].
Qed.

(** X17. When every job has file records and no source file occurs in two
    records, the mapping loop leaves nothing unconfirmed, the classifier
    confirms nothing, and the script writes no output. *)
Theorem unique_jobs_write_nothing recs :
  (∀ id docs, (id, docs) ∈ recs → docs ≠ []) →
  NoDup (file_s3_url <$> concat (recs.*2)) →
  (map_records recs).1 = [] ∧
  classify (map_records recs).2 [] = [] ∧
  ∀ {V} `{EqDecision V} (fuel : nat) (e : env V)
    (uuid_to_stats : gmap string (stats_source V)) (w : world),
    report fuel e uuid_to_stats (map_records recs).1
      (classify (map_records recs).2 []) w = (Ok [], w).
Proof.
  intros Hdocs Hnd.
  assert (Hun : (map_records recs).1 = []).
  { destruct (MapperFacts.map_records_shape recs ([], []))
      as (_ & _ & _ & Heq); [constructor | by intros k vs ?%elem_of_nil |].
    unfold map_records. rewrite Heq. simpl.
    destruct (filter _ recs) as [|[id docs] rest] eqn:Hf; [done |].
    assert (Hin : (id, docs) ∈ filter (λ r, length r.2 = 0%nat) recs)
      by (rewrite Hf; apply elem_of_cons; auto).
    apply list_elem_of_filter in Hin as [Hlen Hin]. simpl in Hlen.
    apply nil_length_inv in Hlen. by destruct (Hdocs id docs Hin). }
  assert (Hcl : classify (map_records recs).2 [] = []).
  { rewrite ClassifierFacts.classify_concat, no_group_no_shared; [done |].
    apply map_records_unique; simpl; [by intros k vs ?%elem_of_nil | | | done].
    - by intros (k & vs & ?%elem_of_nil & _).
    - by intros k _ (vs & ?%elem_of_nil). }
  split; [done |]. split; [done |].
  intros V HV fuel e stats w. rewrite Hun, Hcl. reflexivity.
Qed.

Lemma unique_jobs_write_nothing_witness :
  classify
    (map_records [("A", [FileSource "f1" 5]); ("B", [FileSource "f2" 3])]).2
    [] = [].
Proof.
  apply (unique_jobs_write_nothing
           [("A", [FileSource "f1" 5]); ("B", [FileSource "f2" 3])]).
  - intros id docs Hin Hnil. subst docs.
    rewrite !elem_of_cons, elem_of_nil in Hin.
    destruct Hin as [H | [H | []]]; discriminate H.
  - simpl. apply NoDup_cons. split; [| apply NoDup_singleton].
    rewrite list_elem_of_singleton. discriminate.
Defined.
End UniqueFacts.

(** ** More on the fallback *)

Module FallbackMore.
Import Search Evidence.

Section Facts.
Context {V : Type} `{EqDecision V}.
Implicit Types (e : env V) (w : world) (acc : lists)
  (pts : list (gmap string V)).

(** The retry loop hands on only a response with status 200, so the
    [raise_for_status] that follows it does not raise. *)
Lemma retry_loop_ok_200 (fuel : nat) e (url : string)
    (params : option (query_params V)) (retries delay : Z)
    (resp r : response V) w w' :
  retry_loop fuel e url params retries delay resp w = (Ok r, w') →
  0 < retries →
  status_code r = 200 ∧ raise_for_status r w' = (Ok tt, w').
Proof.
  intros Hrun Hretries. revert delay resp w Hrun.
  induction fuel as [|fuel IH]; intros delay resp w; simpl; [done |].
  rewrite (proj2 (Z.ltb_lt 0 retries) Hretries). simpl.
  destruct (status_code resp =? 200) eqn:Hs; simpl.
  - intros [= <- <-]. apply Z.eqb_eq in Hs. split; [done |].
    unfold raise_for_status. by rewrite Hs.
  - unfold bind at 1 2. unfold sleep, session_get. simpl.
    destruct (http_get e (requests w) url params) as [r1|]; [| done].
    apply IH.
Qed.

(** X19. The number of retries is not bounded by [retries]: when the
    service answers [m] further requests with another status and then one
    with 200, the loop sleeps [delay], [2 delay], ... before each of the
    [m + 1] requests and hands on the good response. *)
Theorem retry_loop_recovers (m fuel : nat) e (url : string)
    (params : option (query_params V)) (retries delay : Z)
    (resp r : response V) w :
  0 < retries →
  status_code resp ≠ 200 →
  (∀ i, (i < m)%nat →
        ∃ ri, http_get e (requests w + i) url params = Some ri ∧
              status_code ri ≠ 200) →
  http_get e (requests w + m) url params = Some r →
  status_code r = 200 →
  (m + 1 < fuel)%nat →
  retry_loop fuel e url params retries delay resp w =
  (Ok r,
   World (requests w + S m)
     (sleeps w ++ ((λ i : nat, delay * 2 ^ Z.of_nat i) <$> seq 0 (S m)))).
Proof.
  intros Hretries. revert fuel delay resp w.
  induction m as [|m IH]; intros fuel delay resp w Hresp Hbad Hgood Hr Hfuel;
    (destruct fuel as [|fuel]; [lia |]); simpl;
    rewrite (proj2 (Z.ltb_lt 0 retries) Hretries),
            (proj2 (Z.eqb_neq _ _) Hresp); simpl;
    unfold bind at 1 2; unfold sleep, session_get; simpl.
  - rewrite Nat.add_0_r in Hgood. rewrite Hgood.
    destruct fuel as [|fuel]; [lia |]. simpl.
    rewrite (proj2 (Z.ltb_lt 0 retries) Hretries),
            (proj2 (Z.eqb_eq _ _) Hr). simpl.
    unfold ret. do 3 f_equal; [lia |]. f_equal. lia.
  - destruct (Hbad 0%nat ltac:(lia)) as (r0 & Hr0 & Hs0).
    rewrite Nat.add_0_r in Hr0. rewrite Hr0.
    rewrite (IH fuel (delay * 2) r0 _ Hs0); simpl; [| | | done | lia].
    + f_equal. f_equal; [lia |]. rewrite <- app_assoc. f_equal.
      simpl. f_equal; [lia |]. f_equal; [lia |].
      rewrite <- !fmap_S_seq, <- !list_fmap_compose.
      apply list_fmap_ext. intros _ i _. simpl.
      rewrite !Nat2Z.inj_succ, !Z.pow_succ_r by lia. lia.
    + intros i Hi. destruct (Hbad (S i) ltac:(lia)) as (ri & Hri & Hsi).
      exists ri. split; [| done]. rewrite <- Hri. f_equal. lia.
    + rewrite <- Hgood. f_equal. lia.
Qed.
End Facts.

Lemma retry_loop_recovers_witness :
  retry_loop 6
    (Scenario.env_of Scenario.no_files
       (λ n _ _, Some (Response (if decide (n < 3)%nat then 503 else 200)
                         None)))
    "u" None 2 1 (Response 503 None) Scenario.w0
  = (Ok (Response 200 None), World 4 [1; 2; 4; 8]).
Proof.
  apply (retry_loop_recovers 3 6
           (Scenario.env_of Scenario.no_files
              (λ n _ _, Some (Response (if decide (n < 3)%nat then 503
                                        else 200) None)))
           "u" None 2 1 (Response 503 None) (Response 200 None)
           Scenario.w0); [lia | done | | reflexivity | reflexivity | lia].
  intros i Hi. exists (Response 503 None). simpl.
  rewrite decide_True by lia. done.
Defined.


(** *** Paging *)

Section Paging.
Context {V : Type} `{EqDecision V}.
Implicit Types (e : env V) (pages : list (list (gmap string V))).

Lemma retry_loop_ok_now (fuel : nat) e (url : string)
    (params : option (query_params V)) (retries delay : Z)
    (resp : response V) (w : world) :
  (0 < fuel)%nat → status_code resp = 200 →
  retry_loop fuel e url params retries delay resp w = (Ok resp, w).
Proof.
  intros Hfuel Hs. destruct fuel as [|fuel]; [lia |]. simpl.
  by rewrite Hs, andb_false_r.
Qed.

Lemma page_loop_stop (fuel : nat) e (next_url : option string)
    (params : option (query_params V)) (acc : list (gmap string V))
    (w : world) :
  (0 < fuel)%nat → next_url = None ∨ next_url = Some "NA" →
  page_loop fuel e next_url params acc w = (Ok acc, w).
Proof.
  intros Hfuel Hnext. destruct fuel as [|fuel]; [lia |].
  by destruct Hnext as [-> | ->].
Qed.

Lemma page_loop_paged e pages (terminal : option string) (k n fuel : nat)
    (url : string) (params : option (query_params V))
    (acc : list (gmap string V)) (s : list Z) :
  terminal = None ∨ terminal = Some "NA" →
  length pages = (n + S k)%nat →
  (k + 1 < fuel)%nat →
  url ≠ "NA" →
  (n = 0%nat ∧ is_Some params
   ∨ (0 < n)%nat ∧ params = None ∧ url = "next-page") →
  page_loop fuel (Services.with_http e (Services.paged pages terminal))
    (Some url) params acc (World n s)
  = (Ok (acc ++ concat (drop n pages)), World (length pages) s).
Proof.
  intros Hterm. revert n fuel url params acc.
  induction k as [|k IH]; intros n fuel url params acc Hlen Hfuel Hurl Hreq.
  all: destruct fuel as [|fuel]; [lia |].
  all: destruct (lookup_lt_is_Some_2 pages n ltac:(lia)) as [pts Hpts].
  all: assert (Hget : Services.paged pages terminal n url params
              = Some (Response 200
                        (Some (Page (Some pts)
                                 (if decide (S n = length pages)
                                  then terminal else Some "next-page")))));
    [unfold Services.paged; rewrite Hpts;
     destruct Hreq as [[-> [p ->]] | (Hn & -> & ->)];
     [done | destruct n; [lia | by rewrite decide_True]] |].
  all: cbn [page_loop]; rewrite decide_False by done.
  all: unfold bind at 1; unfold session_get; cbn [http_get Services.with_http
         requests sleeps]; rewrite Hget.
  all: unfold bind at 1; rewrite retry_loop_ok_now by (done || lia).
  all: unfold bind at 1 2 3; unfold raise_for_status, item, ret;
       cbn [status_code json results next].
  all: rewrite (drop_S _ _ _ Hpts); cbn [concat].
  - rewrite decide_True by lia. simpl.
    rewrite page_loop_stop by (done || lia).
    rewrite drop_ge by lia. simpl. rewrite app_nil_r.
    do 2 f_equal. lia.
  - rewrite decide_False by lia. simpl.
    rewrite (IH (S n) fuel "next-page" None (acc ++ pts));
      [by rewrite <- app_assoc | lia | lia | done |].
    right. split; [lia | done].
Qed.

(** X20. Against a service that holds some pages and fails on any request
    not made as the protocol asks, the paging loop returns the points of
    all pages in order after one request per page and no sleep: only the
    first request carries the parameters, the later ones go to the [next]
    address, and the loop stops on an absent [next] as on ["NA"]. *)
Theorem page_loop_collects e pages (terminal : option string)
    (fuel : nat) (params : query_params V) (s : list Z) :
  pages ≠ [] →
  terminal = None ∨ terminal = Some "NA" →
  DOMS_QUERY_URL e ≠ "NA" →
  (length pages < fuel)%nat →
  page_loop fuel (Services.with_http e (Services.paged pages terminal))
    (Some (DOMS_QUERY_URL e)) (Some params) [] (World 0 s)
  = (Ok (concat pages), World (length pages) s).
Proof.
  intros Hne Hterm Hurl Hfuel.
  destruct pages as [|pts pages']; [done |].
  rewrite (page_loop_paged e (pts :: pages') terminal (length pages') 0 fuel
             (DOMS_QUERY_URL e) (Some params) [] s);
    [done | done | simpl; lia | simpl in *; lia | done |].
  left. split; [done | eauto].
Qed.
End Paging.

Lemma page_loop_collects_witness :
  page_loop 3
    (Services.with_http
       (Scenario.env_of Scenario.no_files Scenario.always_500)
       (Services.paged [[Scenario.point 1 2 3 4 7]; [Scenario.point 1 2 3 5 8]]
          None))
    (Some "https://doms/query")
    (Some (QueryParams 1 2 3 "0,0,0,0" 0 5 "t0" "t1" 20000)) []
    (World 0 [])
  = (Ok [Scenario.point 1 2 3 4 7; Scenario.point 1 2 3 5 8], World 2 []).
Proof.
  apply (page_loop_collects
           (Scenario.env_of Scenario.no_files Scenario.always_500)
           [[Scenario.point 1 2 3 4 7]; [Scenario.point 1 2 3 5 8]] None 3
           (QueryParams 1 2 3 "0,0,0,0" 0 5 "t0" "t1" 20000) []);
    [done | by left | done | simpl; lia].
Defined.

(** *** Points that lack a key, and the three lists *)

Section Lists.
Context {V : Type} `{EqDecision V}.
Implicit Types (e : env V) (w : world) (acc : lists)
  (pts : list (gmap string V)).

Lemma group_points_none pts (d : list (V * V * V * V * list V)) :
  (∃ p, p ∈ pts ∧ (point_key p = None ∨ p !! "job_id" = None)) →
  group_points pts d = None.
Proof.
  revert d. induction pts as [|q pts IH]; intros d (p & Hin & Hbad);
    [by apply elem_of_nil in Hin |].
  simpl. destruct (point_key q) as [k|] eqn:Hk; [| done]. simpl.
  destruct (q !! "job_id") as [v|] eqn:Hv; [| done]. simpl.
  apply elem_of_cons in Hin as [-> | Hin]; [| apply IH; eauto].
  destruct Hbad; congruence.
Qed.

(** X21. When the pages are fetched but one returned point lacks [time],
    [latitude], [longitude], [depth] or [job_id], the job is put in
    [suspected_duplicates], whatever the other points show. *)
Theorem malformed_point_suspected (fuel : nat) e
    (uuid_to_stats : gmap string (stats_source V)) acc (uuid : string)
    w w' (parquet_stats : stats_source V) (params : query_params V) pts :
  uuid_to_stats !! uuid = Some parquet_stats →
  build_params e parquet_stats = Some params →
  page_loop fuel e (Some (DOMS_QUERY_URL e)) (Some params) [] w
    = (Ok pts, w') →
  (∃ p, p ∈ pts ∧ (point_key p = None ∨ p !! "job_id" = None)) →
  fallback_step fuel e uuid_to_stats acc uuid w =
  (Ok (Lists (confirmed_duplicates acc)
         (suspected_duplicates acc ++ [uuid])
         (missing_ingest_records acc)), w').
Proof.
  intros Hstats Hparams Hpages Hbad.
  unfold fallback_step, try_except, check_job, bind, item.
  rewrite Hstats. unfold ret at 1. rewrite Hparams. unfold ret at 1.
  by rewrite Hpages, (group_points_none pts [] Hbad).
Qed.

(** X22. With one fetch result per job, when the fallback loop ends every
    unconfirmed job is in exactly one of the three lists, the suspected
    and the missing lists have no repeats, and no job of either is in
    another list. *)
Theorem three_lists_disjoint (fuel : nat) e
    (uuid_to_stats : gmap string (stats_source V))
    (ingest_records : list (string * list file_source))
    w w' (ls : lists) :
  NoDup (ingest_records.*1) →
  fallback fuel e uuid_to_stats (map_records ingest_records).1
    (Lists (classify (map_records ingest_records).2 []) [] []) w
    = (Ok ls, w') →
  (∀ j, j ∈ (map_records ingest_records).1 →
        j ∈ confirmed_duplicates ls ∨ j ∈ suspected_duplicates ls
        ∨ j ∈ missing_ingest_records ls) ∧
  NoDup (suspected_duplicates ls) ∧
  NoDup (missing_ingest_records ls) ∧
  (∀ j, j ∈ suspected_duplicates ls →
        (j ∉ confirmed_duplicates ls) ∧ (j ∉ missing_ingest_records ls)) ∧
  (∀ j, j ∈ missing_ingest_records ls → j ∉ confirmed_duplicates ls).
Proof.
  intros Hnodup Hrun.
  apply RunFacts.fallback_split in Hrun
    as (c & s & m & Hc & Hs & Hm & Hperm).
  simpl in Hc, Hs, Hm. rewrite Hc, Hs, Hm.
  assert (Hun : NoDup (map_records ingest_records).1)
    by by apply ConfirmedFacts.map_records_nodup.
  assert (Hcl : ∀ j, j ∈ s ++ m →
            j ∉ classify (map_records ingest_records).2 []).
  { intros j Hj. apply ClassifierFacts.unconfirmed_not_classified; [done |].
    rewrite Hperm, elem_of_app. auto. }
  rewrite Hperm in Hun.
  apply NoDup_app in Hun as (_ & Hcsm & Hsm).
  apply NoDup_app in Hsm as (Hs' & Hsm' & Hm').
  split; [| split; [done | split; [done | split]]].
  - intros j. rewrite Hperm, !elem_of_app. tauto.
  - intros j Hj. split; [| by apply Hsm'].
    rewrite elem_of_app. intros [Hin | Hin].
    + apply (Hcl j); [apply elem_of_app; auto | done].
    + apply (Hcsm j Hin), elem_of_app. auto.
  - intros j Hj. rewrite elem_of_app. intros [Hin | Hin].
    + apply (Hcl j); [apply elem_of_app; auto | done].
    + apply (Hcsm j Hin), elem_of_app. auto.
Qed.
End Lists.

Lemma malformed_point_suspected_witness :
  fallback_step 6
    (Scenario.env_of Scenario.no_files
       (Scenario.one_page [Scenario.point 1 2 3 4 7; {["time" := 1]}]))
    {["D" := Scenario.stats_of "s3://bucket/prefix/job_id=D/x"]}
    (Lists [] [] []) "D" Scenario.w0 =
  (Ok (Lists [] ["D"] []), World 1 []).
Proof.
  apply (malformed_point_suspected 6
           (Scenario.env_of Scenario.no_files
              (Scenario.one_page [Scenario.point 1 2 3 4 7; {["time" := 1]}]))
           {["D" := Scenario.stats_of "s3://bucket/prefix/job_id=D/x"]}
           (Lists [] [] []) "D" Scenario.w0 (World 1 [])
           (Scenario.stats_of "s3://bucket/prefix/job_id=D/x")
           (QueryParams 1 2 3 "0,0,0,0" 0 5 "1970-01-01T00:00:00Z"
              "1970-01-01T00:00:00Z" 20000)
           [Scenario.point 1 2 3 4 7; {["time" := 1]}]).
  - reflexivity.
  - vm_compute. reflexivity.
  - vm_compute. reflexivity.
  - exists {["time" := 1]}. split; [| left; reflexivity].
    apply elem_of_cons. right. apply elem_of_cons. by left.
Defined.

Lemma three_lists_disjoint_witness :
  NoDup (suspected_duplicates (Lists [] ["D"] [])).
Proof.
  apply (three_lists_disjoint 6
           (Scenario.env_of Scenario.no_files Scenario.always_500) ∅
           [("D", [])] Scenario.w0 Scenario.w0 (Lists [] ["D"] [])).
  - simpl. apply NoDup_singleton.
  - reflexivity.
Defined.

(** *** Error statuses *)

Section Statuses.
Context {V : Type} `{EqDecision V}.
Implicit Types (e : env V) (w : world) (acc : lists)
  (pts : list (gmap string V)).




End Statuses.

End FallbackMore.
